(** * gtfs-alerts-translation-lambda: translation core and orchestrator

    A shallow embedding of
      - [gtfs_translation/core/smartling.py]  (class [SmartlingTranslator]),
      - [gtfs_translation/core/translator.py] (the [Translator] contract),
      - [gtfs_translation/lambda_handler.py]  ([should_upload], [run_translation]),
    and the properties the specification states about them.

    Conventions.
      - Python values coming out of [resp.json()] are values of [json].
      - [time.time()] readings and [expiresIn] are integers (whole seconds);
        the float arithmetic of the source is not modelled.
      - Coroutines run sequentially: one call at a time, so the
        [asyncio.Lock] around [_get_token] has no observable effect and is
        omitted.  Calls to [logging] are omitted as well.
      - The network is an oracle ([Env]): the k-th authentication request and
        the k-th translation request get the k-th scripted reply.
      - [int] reads ASCII integer literals; the digits and white space of
        other scripts, which Python reads as well, are outside the model. *)

From Stdlib Require Import ZArith List String Ascii Bool Lia Arith.
From Stdlib Require Import Permutation Sorted DecimalString DecimalNat.
Import ListNotations.

Set Warnings "-register-all".
Local Open Scope string_scope.
Local Open Scope Z_scope.
Local Open Scope list_scope.

(* ===================================================================== *)
(** * Python values and built-ins used by the source *)
(* ===================================================================== *)

Module Py.

(** Parsed JSON, as [json.loads] / [resp.json()] produce it.  Numbers are
    integers; an object keeps its keys in order and has no repeated key. *)
Inductive json : Type :=
| JNull
| JBool (b : bool)
| JNum (z : Z)
| JStr (s : string)
| JArr (xs : list json)
| JObj (kv : list (string * json)).

(** The exceptions the modelled code can see. *)
Inductive exn : Type :=
| HTTPStatusError (status : Z)   (* httpx.HTTPStatusError, by raise_for_status *)
| RequestError                   (* httpx transport failure, not an HTTPStatusError *)
| JSONDecodeError
| KeyError (k : string)
| TypeError
| ValueError (msg : string)
| OtherError (msg : string).

Inductive Res (A : Type) : Type :=
| Ok (a : A)
| Raise (e : exn).
Arguments Ok {A} a.
Arguments Raise {A} e.

Definition is_ok {A} (r : Res A) : bool :=
  match r with Ok _ => true | Raise _ => false end.

(** Truth value of an object ([if self._token], [if not texts]). *)
Definition truthy (v : json) : bool :=
  match v with
  | JNull => false
  | JBool b => b
  | JNum z => negb (z =? 0)
  | JStr s => negb (s =? EmptyString)%string
  | JArr xs => match xs with [] => false | _ => true end
  | JObj kv => match kv with [] => false | _ => true end
  end.

(** [d[k]] for a string key [k]. *)
Fixpoint assoc (k : string) (kv : list (string * json)) : option json :=
  match kv with
  | [] => None
  | (k', v) :: kv' => if (k =? k')%string then Some v else assoc k kv'
  end.

Definition getitem (v : json) (k : string) : Res json :=
  match v with
  | JObj kv => match assoc k kv with Some x => Ok x | None => Raise (KeyError k) end
  | _ => Raise TypeError
  end.

(** Iteration ([for x in v], [sorted(v)]): a list yields its elements, a
    string its characters, a dict its keys; other values are not iterable. *)
Fixpoint chars (s : string) : list json :=
  match s with
  | EmptyString => []
  | String c s' => JStr (String c EmptyString) :: chars s'
  end.

Definition iter (v : json) : Res (list json) :=
  match v with
  | JArr xs => Ok xs
  | JStr s => Ok (chars s)
  | JObj kv => Ok (map (fun p => JStr (fst p)) kv)
  | _ => Raise TypeError
  end.

(** ** [str(i)] for an index and [int(s)] for a string *)

(** [str(i)] of a non-negative [int]: decimal, no sign, no leading zero. *)
Definition str (i : nat) : string :=
  NilEmpty.string_of_uint (Nat.to_uint i).

Definition digit_of (c : ascii) : option Z :=
  let n := nat_of_ascii c in
  if ((48 <=? n)%nat && (n <=? 57)%nat)%bool then Some (Z.of_nat (n - 48)) else None.

(** Characters [int] skips around the literal: tab, line feed, vertical
    tab, form feed, carriage return and space.  The separators 0x1C to 0x1F
    are not among them: [int("\x1c1")] raises. *)
Definition is_space (c : ascii) : bool :=
  let n := nat_of_ascii c in
  (((9 <=? n)%nat && (n <=? 13)%nat) || (n =? 32)%nat)%bool.

(** Strings all of whose characters are ASCII (below 128). *)
Definition is_ascii (c : ascii) : bool := (nat_of_ascii c <? 128)%nat.

Fixpoint ascii_only (s : string) : bool :=
  match s with
  | EmptyString => true
  | String c s' => (is_ascii c && ascii_only s')%bool
  end.

Fixpoint lstrip (s : string) : string :=
  match s with
  | EmptyString => EmptyString
  | String c s' => if is_space c then lstrip s' else s
  end.

Fixpoint rev_append (s acc : string) : string :=
  match s with
  | EmptyString => acc
  | String c s' => rev_append s' (String c acc)
  end.

Definition srev (s : string) : string := rev_append s EmptyString.

Definition strip (s : string) : string := srev (lstrip (srev (lstrip s))).

(** The digits of an integer literal: decimal digits, with single
    underscores allowed between two digits.  [prev] tells whether the
    character just read was a digit. *)
Fixpoint int_digits (acc : Z) (prev : bool) (s : string) : option Z :=
  match s with
  | EmptyString => if prev then Some acc else None
  | String c s' =>
      match digit_of c with
      | Some d => int_digits (10 * acc + d) true s'
      | None =>
          if (Ascii.eqb c "_" && prev)%bool then int_digits acc false s' else None
      end
  end.

(** Strings made of decimal digits only. *)
Fixpoint all_digits (s : string) : bool :=
  match s with
  | EmptyString => true
  | String c s' => match digit_of c with Some _ => all_digits s' | None => false end
  end.

(** [int(s)], base 10.  On an ASCII string ([ascii_only]) this is what
    Python reads: optional white space, an optional sign, decimal digits
    with single underscores between them, optional white space.  Python
    reads the decimal digits and the white space of other scripts as well;
    a string with a character outside ASCII is rejected here, so a
    statement that rests on [int] rejecting a key is made for ASCII keys
    only.  The interpreter's bound on the number of digits is left out. *)
Definition int_of_string (s : string) : option Z :=
  match strip s with
  | String "+" s' => int_digits 0 false s'
  | String "-" s' => option_map Z.opp (int_digits 0 false s')
  | s' => int_digits 0 false s'
  end.

(** [int(v)] for a JSON value. *)
Definition int (v : json) : Res Z :=
  match v with
  | JNum z => Ok z
  | JBool b => Ok (if b then 1 else 0)
  | JStr s =>
      match int_of_string s with
      | Some z => Ok z
      | None => Raise (ValueError "invalid literal for int() with base 10")
      end
  | _ => Raise TypeError
  end.

(** ** [s.endswith(suffix)] and [sep.join(xs)] *)

(** A suffix of [s] is [s] itself or a suffix of its tail. *)
Fixpoint endswith (s suffix : string) : bool :=
  ((s =? suffix)%string
   || match s with
      | EmptyString => false
      | String _ s' => endswith s' suffix
      end)%bool.

Definition join (sep : string) (xs : list string) : string := String.concat sep xs.

(** ** [sorted(xs, key=...)] on integer keys: a stable sort *)

Section StableSort.
Context {A : Type}.

Fixpoint insert (x : Z * A) (l : list (Z * A)) : list (Z * A) :=
  match l with
  | [] => [x]
  | y :: l' => if fst x <=? fst y then x :: l else y :: insert x l'
  end.

(** Elements with equal keys keep their input order. *)
Fixpoint sort (l : list (Z * A)) : list (Z * A) :=
  match l with
  | [] => []
  | x :: l' => insert x (sort l')
  end.
(** Orders on the keys, to state what [sort] achieves. *)
Definition key_le (x y : Z * A) : Prop := fst x <= fst y.
Definition key_lt (x y : Z * A) : Prop := fst x < fst y.
End StableSort.

End Py.

(* ===================================================================== *)
(** * Effects: state passing with exceptions *)
(* ===================================================================== *)

Module Eff.
Import Py.

(** A computation over a mutable store [S] that returns or raises.  The store
    keeps the changes made before an exception was raised. *)
Definition M (S A : Type) : Type := S -> Res A * S.

Section Monad.
Context {S : Type}.

Definition ret {A} (a : A) : M S A := fun st => (Ok a, st).
Definition raise {A} (e : exn) : M S A := fun st => (Raise e, st).
Definition lift {A} (r : Res A) : M S A := fun st => (r, st).
Definition bind {A B} (c : M S A) (f : A -> M S B) : M S B :=
  fun st => match c st with
            | (Ok a, st') => f a st'
            | (Raise e, st') => (Raise e, st')
            end.

(** [try: c] / [except Exception as e: h e] *)
Definition try_except {A} (c : M S A) (h : exn -> M S A) : M S A :=
  fun st => match c st with
            | (Ok a, st') => (Ok a, st')
            | (Raise e, st') => h e st'
            end.

(** [try: c] / [finally: f].  An exception of [f] replaces the outcome
    of [c]. *)
Definition try_finally {A} (c : M S A) (f : M S unit) : M S A :=
  fun st => match c st with
            | (r, st') =>
                match f st' with
                | (Ok _, st'') => (r, st'')
                | (Raise e, st'') => (Raise e, st'')
                end
            end.

Fixpoint mapM {A B} (f : A -> M S B) (l : list A) : M S (list B) :=
  match l with
  | [] => ret []
  | x :: l' => bind (f x) (fun y => bind (mapM f l') (fun ys => ret (y :: ys)))
  end.

(** [for x in l: f x] *)
Fixpoint for_each {A} (f : A -> M S unit) (l : list A) : M S unit :=
  match l with
  | [] => ret tt
  | x :: l' => bind (f x) (fun _ => for_each f l')
  end.
End Monad.

End Eff.

Declare Scope py_scope.
Delimit Scope py_scope with py.
Notation "x <- c ;; k" := (Eff.bind c (fun x => k))
  (at level 100, c at next level, right associativity) : py_scope.
Notation "' pat <- c ;; k" := (Eff.bind c (fun x => match x with pat => k end))
  (at level 100, pat pattern, c at next level, right associativity) : py_scope.
Notation "c ;;; k" := (Eff.bind c (fun _ => k))
  (at level 100, right associativity) : py_scope.

(* ===================================================================== *)
(** * [core/smartling.py]: class [SmartlingTranslator] *)
(* ===================================================================== *)

Module Smartling.
Import Py Eff.
Local Open Scope py_scope.

(** What the HTTP client gets back for one request. *)
Record Response : Type := mkResponse {
  status_code : Z;
  body : option json          (* [None]: the body is not JSON *)
}.

Inductive Reply : Type :=
| Replied (r : Response)
| NoReply.                     (* time-out, connection failure *)

(** The environment of a translator: clock readings and scripted replies. *)
Record Env : Type := mkEnv {
  time_at : nat -> Z;          (* k-th reading of time.time() *)
  auth_at : nat -> Reply;      (* reply to the k-th authentication request *)
  mt_at : nat -> Reply         (* reply to the k-th translation request *)
}.

(** Requests sent, in order. *)
Inductive Event : Type :=
| AuthPost (userIdentifier userSecret : string)
| MtPost (account : string) (bearer : json)
         (sourceLocaleId targetLocaleId : string)
         (items : list (string * string))       (* (key, sourceText) *)
| Closed.

Definition is_auth (e : Event) : bool :=
  match e with AuthPost _ _ => true | _ => false end.
Definition is_mt (e : Event) : bool :=
  match e with MtPost _ _ _ _ _ => true | _ => false end.

Definition auth_calls (l : list Event) : nat := List.length (filter is_auth l).
Definition mt_calls (l : list Event) : nat := List.length (filter is_mt l).

(** The attributes set once by [__init__]. *)
Record Self : Type := mkSelf {
  user_id : string;
  user_secret : string;
  account_uid : string
}.

(** The mutable part: the two attributes that change, the number of clock
    readings taken and the requests sent so far. *)
Record State : Type := mkState {
  _token : json;               (* [None] is [JNull] *)
  _token_expiry : Z;
  clock_reads : nat;
  log : list Event
}.

(** Class attributes [_token = None], [_token_expiry = 0]. *)
Definition init : State :=
  {| _token := JNull; _token_expiry := 0; clock_reads := 0%nat; log := [] |}.

Definition with_token (v : json) (st : State) : State :=
  {| _token := v; _token_expiry := _token_expiry st;
     clock_reads := clock_reads st; log := log st |}.
Definition with_expiry (z : Z) (st : State) : State :=
  {| _token := _token st; _token_expiry := z;
     clock_reads := clock_reads st; log := log st |}.
Definition with_event (ev : Event) (st : State) : State :=
  {| _token := _token st; _token_expiry := _token_expiry st;
     clock_reads := clock_reads st; log := log st ++ [ev] |}.
Definition with_tick (st : State) : State :=
  {| _token := _token st; _token_expiry := _token_expiry st;
     clock_reads := S (clock_reads st); log := log st |}.

(** [[{"key": str(i), "sourceText": text} for i, text in enumerate(texts)]] *)
Fixpoint enumerate_from {A} (i : nat) (l : list A) : list (nat * A) :=
  match l with
  | [] => []
  | x :: l' => (i, x) :: enumerate_from (S i) l'
  end.

Definition request_items (texts : list string) : list (string * string) :=
  map (fun p => (str (fst p), snd p)) (enumerate_from 0 texts).

(** The provider answered the request items numbered [i], [i+1], ...: the
    k-th element of [items] carries the key [str (i+k)] and the k-th
    translation. *)
Fixpoint answers_from (i : nat) (items translations : list json) : Prop :=
  match items, translations with
  | [], [] => True
  | x :: items', t :: translations' =>
      getitem x "key" = Ok (JStr (str i))
      /\ getitem x "translationText" = Ok t
      /\ answers_from (S i) items' translations'
  | _, _ => False
  end.

(** [data["response"]["data"][field]] *)
Definition response_data (data : json) (field : string) : Res json :=
  match getitem data "response" with
  | Ok r => match getitem r "data" with
            | Ok d => getitem d field
            | Raise e => Raise e
            end
  | Raise e => Raise e
  end.



(** The provider refused the request: HTTP 401. *)
Definition unauthorized (r : Reply) : bool :=
  match r with
  | Replied resp => status_code resp =? 401
  | NoReply => false
  end.

(** The translation request for [texts], sent with the bearer token [tok]. *)
Definition mt_request (self : Self) (texts : list string) (target_lang : string)
           (tok : json) : Event :=
  MtPost (account_uid self) tok "en" target_lang (request_items texts).

(** The integer [int(x["key"])] when it exists. *)
Definition key_of (x : json) : Z :=
  match getitem x "key" with
  | Ok k => match int k with Ok z => z | Raise _ => 0 end
  | Raise _ => 0
  end.

Definition keyed (x : json) : Z * json := (key_of x, x).

(** Computations that leave the translator as it is. *)
Definition stateless {X} (c : M State X) : Prop :=
  forall st, exists r, c st = (r, st).

(** Computations whose exceptions are never HTTP status errors. *)
Definition no_status_error {X} (c : M State X) : Prop :=
  forall st e st', c st = (Raise e, st') -> forall s, e <> HTTPStatusError s.

Section WithEnv.
Variable env : Env.

(** The test [self._token and now < self._token_expiry] of [_get_token],
    for the next clock reading. *)
Definition cache_hit (st : State) : bool :=
  (truthy (_token st) && (time_at env (clock_reads st) <? _token_expiry st))%bool.

Definition time_time : M State Z :=
  fun st => (Ok (time_at env (clock_reads st)), with_tick st).

Definition get_token_attr : M State json := fun st => (Ok (_token st), st).
Definition get_expiry_attr : M State Z := fun st => (Ok (_token_expiry st), st).
Definition set_token_attr (v : json) : M State unit :=
  fun st => (Ok tt, with_token v st).
Definition set_expiry_attr (z : Z) : M State unit :=
  fun st => (Ok tt, with_expiry z st).

(** [await self.client.post(...)]: the request is recorded, the reply is
    the next scripted one of its kind. *)
Definition post (ev : Event) (script : nat -> Reply) (count : list Event -> nat)
  : M State Response :=
  fun st =>
    match script (count (log st)) with
    | Replied r => (Ok r, with_event ev st)
    | NoReply => (Raise RequestError, with_event ev st)
    end.

(** httpx: [raise_for_status] raises unless the status is 2xx. *)
Definition raise_for_status (r : Response) : M State unit :=
  if ((200 <=? status_code r) && (status_code r <=? 299))%bool
  then ret tt else raise (HTTPStatusError (status_code r)).

Definition resp_json (r : Response) : M State json :=
  match body r with
  | Some v => ret v
  | None => raise JSONDecodeError
  end.

(** [now + expires_in - 60] *)
Definition add_seconds (now : Z) (expires_in : json) : M State Z :=
  match expires_in with
  | JNum z => ret (now + z - 60)
  | JBool b => ret (now + (if b then 1 else 0) - 60)
  | _ => raise TypeError
  end.

Definition _get_token (self : Self) : M State json :=
  now <- time_time ;;
  tok <- get_token_attr ;;
  expiry <- get_expiry_attr ;;
  if (truthy tok && (now <? expiry))%bool then ret tok
  else
    resp <- post (AuthPost (user_id self) (user_secret self)) (auth_at env) auth_calls ;;
    raise_for_status resp ;;;
    data <- resp_json resp ;;
    r <- lift (getitem data "response") ;;
    d <- lift (getitem r "data") ;;
    access <- lift (getitem d "accessToken") ;;
    set_token_attr access ;;;
    r' <- lift (getitem data "response") ;;
    d' <- lift (getitem r' "data") ;;
    expires_in <- lift (getitem d' "expiresIn") ;;
    e <- add_seconds now expires_in ;;
    set_expiry_attr e ;;;
    get_token_attr.

(** [sorted(items, key=lambda x: int(x["key"]))]: the keys are computed
    for all items first, then the items are sorted on them. *)
Definition sort_key (x : json) : M State Z :=
  k <- lift (getitem x "key") ;; lift (int k).

Definition sorted_by_key (items : list json) : M State (list json) :=
  keyed <- mapM (fun x => k <- sort_key x ;; ret (k, x)) items ;;
  ret (map snd (sort keyed)).

Definition _do_translate_batch (self : Self) (texts : list string)
           (target_lang : string) : M State (list json) :=
  token <- _get_token self ;;
  resp <- post (MtPost (account_uid self) token "en" target_lang (request_items texts))
               (mt_at env) mt_calls ;;
  raise_for_status resp ;;;
  data <- resp_json resp ;;
  r <- lift (getitem data "response") ;;
  d <- lift (getitem r "data") ;;
  items <- lift (getitem d "items") ;;
  elems <- lift (iter items) ;;
  sorted_items <- sorted_by_key elems ;;
  mapM (fun item => lift (getitem item "translationText")) sorted_items.

Definition translate_batch (self : Self) (texts : list string)
           (target_lang : string) : M State (list json) :=
  match texts with
  | [] => ret []
  | _ :: _ =>
      try_except (_do_translate_batch self texts target_lang)
        (fun e =>
           match e with
           | HTTPStatusError status =>
               if status =? 401 then
                 set_token_attr JNull ;;;
                 _do_translate_batch self texts target_lang
               else raise e
           | _ => raise e
           end)
  end.

Definition close : M State unit :=
  fun st => (Ok tt, with_event Closed st).

End WithEnv.

End Smartling.

(* ===================================================================== *)
(** * [lambda_handler.py]: [should_upload] and [run_translation] *)
(* ===================================================================== *)

Module Handler.
Import Py Eff.
Local Open Scope py_scope.

(** [FeedFormat = Literal["json", "pb"]] *)
Inductive FeedFormat : Type := Fjson | Fpb.

(** The part of [gtfs_realtime_pb2.FeedMessage] the handler and the
    specification talk about: the header timestamp and, per alert, the
    translated strings of its text fields. *)
Record Translation : Type := mkTranslation {
  text : string;
  language : string
}.

Record FeedEntity : Type := mkEntity {
  id : string;
  header_text : list Translation;
  description_text : list Translation
}.

Record FeedMessage : Type := mkFeed {
  header_timestamp : Z;
  entity : list FeedEntity
}.

(** [ProcessingMetrics]: the one counter the handler reads. *)
Record ProcessingMetrics : Type := mkMetrics {
  strings_translated : Z
}.

(** A protobuf message object is always true, so [not old_feed] holds
    exactly for [None]. *)
Definition should_upload (old_feed : option FeedMessage) (new_feed : FeedMessage)
           (metrics : option ProcessingMetrics) : bool :=
  match old_feed with
  | None => true
  | Some old =>
      if negb (header_timestamp old =? header_timestamp new_feed) then true
      else match metrics with
           | None => true
           | Some m => 0 <? strings_translated m
           end
  end.

(** [settings]: the fields [run_translation] reads. *)
Record Settings : Type := mkSettings {
  smartling_project_id : string;
  target_lang_list : list string;
  concurrency_limit : Z
}.

Inductive TranslatorKind : Type := JobBatches | MtRouter.

(** The collaborators of [run_translation] outside this file (fetcher,
    feed codec, feed processor, S3 client, translator), as the results and
    exceptions they hand back. *)
Record World : Type := mkWorld {
  settings : Settings;
  fetch_source : string -> Res (string * FeedFormat);
  parse : string -> FeedFormat -> Res FeedMessage;
  json_loads : string -> Res json;
  fetch_old_feed : string -> FeedFormat -> Res (option FeedMessage * option json);
  (** [FeedProcessor.process_feed] changes [new_feed] in place; here it
      returns the changed feed next to the metrics. *)
  process_feed : FeedMessage -> option FeedMessage -> TranslatorKind ->
                 list string -> Z -> option json -> option json ->
                 Res (ProcessingMetrics * FeedMessage);
  serialize : FeedMessage -> FeedFormat -> option json -> Res string;
  get_s3_parts : string -> Res (string * string);
  put_object : string -> string -> string -> string -> Res unit;
  translator_close : Res unit
}.

(** Side effects of a run, in order. *)
Inductive Effect : Type :=
| FetchedSource (url : string)
| FetchedOldFeed (url : string) (fmt : FeedFormat)
| ProcessedFeed (kind : TranslatorKind)
| PutObject (Bucket Key Body ContentType : string)
| ClosedTranslator.

Definition is_put (e : Effect) : bool :=
  match e with PutObject _ _ _ _ => true | _ => false end.

Definition puts (l : list Effect) : list Effect := filter is_put l.

(** A call to a collaborator: the effect is recorded, then the call
    returns or raises. *)
Definition call {A} (ev : Effect) (r : Res A) : M (list Effect) A :=
  fun tr => (r, tr ++ [ev]).

(** Computations that only add to the trace. *)
Definition appends {X} (c : M (list Effect) X) : Prop :=
  forall tr r tr', c tr = (r, tr') -> exists evs, tr' = tr ++ evs.

Definition format_of (url : string) : FeedFormat :=
  if endswith url ".json" then Fjson else Fpb.

(** The loop [for d in dest_urls: if d.endswith(".json"): ref_dest_url = d; break],
    started with [ref_dest_url = dest_urls[0]]. *)
Fixpoint first_json (ref_dest_url : string) (dest_urls : list string) : string :=
  match dest_urls with
  | [] => ref_dest_url
  | d :: rest => if endswith d ".json" then d else first_json ref_dest_url rest
  end.

Definition reference_destination (dest_urls : list string) : Res (string * FeedFormat) :=
  match dest_urls with
  | [] => Raise (OtherError "IndexError: list index out of range")
  | d0 :: _ =>
      let ref_dest_url := first_json d0 dest_urls in
      Ok (ref_dest_url, format_of ref_dest_url)
  end.

Definition content_type_of (fmt : FeedFormat) : string :=
  match fmt with
  | Fjson => "application/json"
  | Fpb => "application/x-protobuf"
  end.

Section WithWorld.
Variable w : World.

(** [source_json = None], replaced by [json.loads(content)] for a JSON
    source. *)
Definition load_source_json (content : string) (source_fmt : FeedFormat)
  : Res (option json) :=
  match source_fmt with
  | Fjson => match json_loads w content with
             | Ok v => Ok (Some v)
             | Raise e => Raise e
             end
  | Fpb => Ok None
  end.

Definition upload (new_feed : FeedMessage) (source_json : option json)
           (dest_url : string) : M (list Effect) unit :=
  let dest_fmt := format_of dest_url in
  translated_content <- lift (serialize w new_feed dest_fmt source_json) ;;
  ' (bucket, key) <- lift (get_s3_parts w dest_url) ;;
  let content_type := content_type_of dest_fmt in
  call (PutObject bucket key translated_content content_type)
       (put_object w bucket key translated_content content_type).

(** [SmartlingJobBatchesTranslator] when [settings.smartling_project_id]
    is set, else [SmartlingTranslator]. *)
Definition translator_of : TranslatorKind :=
  if negb (smartling_project_id (settings w) =? EmptyString)%string then JobBatches else MtRouter.

Definition run_translation (source_url : string) (dest_urls : list string)
  : M (list Effect) unit :=
  match dest_urls with
  | [] => raise (ValueError "No destination URLs provided")
  | _ :: _ =>
    if existsb (fun d => (source_url =? d)%string) dest_urls
    then raise (ValueError ("Source URL matches one of the destinations: " ++ source_url))
    else
      (* 1. Fetch source *)
      ' (content, source_fmt) <- call (FetchedSource source_url) (fetch_source w source_url) ;;
      new_feed <- lift (parse w content source_fmt) ;;
      source_json <- lift (load_source_json content source_fmt) ;;
      (* 2. Pick reference destination for diffing *)
      ' (ref_dest_url, ref_fmt) <- lift (reference_destination dest_urls) ;;
      ' (old_feed, dest_json) <- call (FetchedOldFeed ref_dest_url ref_fmt)
                                      (fetch_old_feed w ref_dest_url ref_fmt) ;;
      (* 3. Translate *)
      let translator := translator_of in
      try_finally
        (' (metrics, new_feed') <-
             call (ProcessedFeed translator)
                  (process_feed w new_feed old_feed translator
                     (target_lang_list (settings w)) (concurrency_limit (settings w))
                     source_json dest_json) ;;
         if negb (should_upload old_feed new_feed' (Some metrics)) then ret tt
         else
           (* 4. Upload to all destinations *)
           for_each (upload new_feed' source_json) dest_urls)
        (call ClosedTranslator (translator_close w))
  end.
(** The [put_object] call that publishing [feed] to [dest_url] makes. *)
Definition put_for (feed : FeedMessage) (source_json : option json) (dest_url : string)
  : Res Effect :=
  let dest_fmt := format_of dest_url in
  match serialize w feed dest_fmt source_json with
  | Ok body =>
      match get_s3_parts w dest_url with
      | Ok (bucket, key) => Ok (PutObject bucket key body (content_type_of dest_fmt))
      | Raise e => Raise e
      end
  | Raise e => Raise e
  end.

(** Serialization, URL splitting and the S3 call all succeed for [dest_url]. *)
Definition upload_succeeds (feed : FeedMessage) (source_json : option json)
           (dest_url : string) : Prop :=
  exists body bucket key,
    serialize w feed (format_of dest_url) source_json = Ok body
    /\ get_s3_parts w dest_url = Ok (bucket, key)
    /\ put_object w bucket key body (content_type_of (format_of dest_url)) = Ok tt.

(** One [put_object] per destination, in the order of [dest_urls]. *)
Definition published (feed : FeedMessage) (source_json : option json)
           (dest_urls : list string) : list Effect :=
  flat_map (fun d => match put_for feed source_json d with
                     | Ok ev => [ev]
                     | Raise _ => []
                     end) dest_urls.

End WithWorld.

End Handler.

(* ===================================================================== *)
(** * Parts of the repository that are not among the sources *)
(* ===================================================================== *)

Module JobBatches.
Import Py.

(** The multipart request of a batch upload: the form fields in the order
    they are sent, and the uploaded file (the texts, a JSON array). *)
Record Upload : Type := mkUpload {
  batch : string;
  fields : list (string * string);
  file : list string
}.

Definition locale_field : string := "localeIdsToAuthorize[]".

(** Modelled from the spec: [SmartlingJobBatchesTranslator._upload_file_to_batch],
    a class missing from [core/smartling.py] as given.  Sections 4.2 and 6:
    one source file with all texts, and the full list of target locales in
    the multipart field [localeIdsToAuthorize[]] as one comma-joined value. *)
Definition _upload_file_to_batch (batch_uid : string) (texts target_langs : list string)
  : Upload :=
  {| batch := batch_uid;
     fields := [(locale_field, join "," target_langs)];
     file := texts |}.

Definition instances (name : string) (u : Upload) : list (string * string) :=
  filter (fun f => (fst f =? name)%string) (fields u).

End JobBatches.

(* ===================================================================== *)
(** * Concrete runs: replies, translators and feeds used in examples *)
(* ===================================================================== *)

Module Scenario.
Import Py Eff Smartling.

Definition auth_ok (tok : string) (expires_in : Z) : Reply :=
  Replied {| status_code := 200;
             body := Some (JObj [("response",
                     JObj [("data", JObj [("accessToken", JStr tok);
                                          ("expiresIn", JNum expires_in)])])]) |}.
Definition item (k t : string) : json :=
  JObj [("key", JStr k); ("translationText", JStr t)].
Definition mt_data (items : list json) : json :=
  JObj [("response", JObj [("data", JObj [("items", JArr items)])])].
Definition mt_ok (items : list json) : Reply :=
  Replied {| status_code := 200; body := Some (mt_data items) |}.
Definition me : Self :=
  {| user_id := "user"; user_secret := "secret"; account_uid := "acc123" |}.
Definition clock (k : nat) : Z := 1000 + Z.of_nat k.
(** The provider returns the item keyed "0" with "Hola". *)
Definition env_hola : Env :=
  {| time_at := clock;
     auth_at := fun _ => auth_ok "test-token" 3600;
     mt_at := fun _ => mt_ok [item "0" "Hola"] |}.
(** The provider returns two items, the second one first. *)
Definition env_swapped : Env :=
  {| time_at := clock;
     auth_at := fun _ => auth_ok "test-token" 3600;
     mt_at := fun _ => mt_ok [item "1" "Mundo"; item "0" "Hola"] |}.
(** The first translation request is refused with 401. *)
Definition env_stale : Env :=
  {| time_at := clock;
     auth_at := fun _ => auth_ok "new-token" 3600;
     mt_at := fun k => match k with
                       | O => Replied {| status_code := 401; body := None |}
                       | _ => mt_ok [item "0" "Retry Success"]
                       end |}.
(** Every translation request is refused with 500. *)
Definition env_down : Env :=
  {| time_at := clock;
     auth_at := fun _ => auth_ok "test-token" 3600;
     mt_at := fun _ => Replied {| status_code := 500; body := None |} |}.
Definition stale : State :=
  {| _token := JStr "stale"; _token_expiry := 9999999999;
     clock_reads := 0; log := [] |}.

(** The translator after one and after two calls for ["Hello"] to "es"
    in [env_hola]. *)
Definition after_first : State :=
  {| _token := JStr "test-token"; _token_expiry := 4540; clock_reads := 1;
     log := [AuthPost "user" "secret";
             mt_request me ["Hello"] "es" (JStr "test-token")] |}.
Definition after_second : State :=
  {| _token := JStr "test-token"; _token_expiry := 4540; clock_reads := 2;
     log := [AuthPost "user" "secret";
             mt_request me ["Hello"] "es" (JStr "test-token");
             mt_request me ["Hello"] "es" (JStr "test-token")] |}.

(** The feed of [tests/unit/test_translation_timeout.py]. *)
Definition sample_feed : Handler.FeedMessage :=
  {| Handler.header_timestamp := 1234567890;
     Handler.entity :=
       [ {| Handler.id := "test-alert-1";
            Handler.header_text :=
              [ {| Handler.text := "Test Alert"; Handler.language := "en" |} ];
            Handler.description_text :=
              [ {| Handler.text := "This is a test alert description.";
                   Handler.language := "en" |} ] |} ] |}.

(** Collaborators that all succeed; [previous] is the feed found at the
    reference destination. *)
Definition world (previous : option Handler.FeedMessage) : Handler.World :=
  {| Handler.settings :=
       {| Handler.smartling_project_id := "test-project";
          Handler.target_lang_list := ["es-419"];
          Handler.concurrency_limit := 20 |};
     Handler.fetch_source := fun _ => Ok ("<source bytes>", Handler.Fpb);
     Handler.parse := fun _ _ => Ok sample_feed;
     Handler.json_loads := fun _ => Raise JSONDecodeError;
     Handler.fetch_old_feed := fun _ _ => Ok (previous, None);
     Handler.process_feed :=
       fun new_feed _ _ _ _ _ _ => Ok ({| Handler.strings_translated := 2 |}, new_feed);
     Handler.serialize := fun _ _ _ => Ok "<feed bytes>";
     Handler.get_s3_parts := fun _ => Ok ("test-bucket", "alerts.pb");
     Handler.put_object := fun _ _ _ _ => Ok tt;
     Handler.translator_close := Ok tt |}.

(** [world] with a feed processor that translates nothing: the feed comes
    back as it was, with a count of zero. *)
Definition world_idle (previous : option Handler.FeedMessage) : Handler.World :=
  {| Handler.settings := Handler.settings (world previous);
     Handler.fetch_source := Handler.fetch_source (world previous);
     Handler.parse := Handler.parse (world previous);
     Handler.json_loads := Handler.json_loads (world previous);
     Handler.fetch_old_feed := Handler.fetch_old_feed (world previous);
     Handler.process_feed :=
       fun new_feed _ _ _ _ _ _ => Ok ({| Handler.strings_translated := 0 |}, new_feed);
     Handler.serialize := Handler.serialize (world previous);
     Handler.get_s3_parts := Handler.get_s3_parts (world previous);
     Handler.put_object := Handler.put_object (world previous);
     Handler.translator_close := Handler.translator_close (world previous) |}.

(** The same alerts under an earlier header timestamp. *)
Definition earlier_feed : Handler.FeedMessage :=
  {| Handler.header_timestamp := 1234567000;
     Handler.entity := Handler.entity sample_feed |}.

Definition source_url : string := "http://example.com/alerts.pb".
Definition destinations : list string := ["s3://test-bucket/alerts.pb"].
End Scenario.

(* ===================================================================== *)
(** * [core/translator.py]: class [MockTranslator] *)
(* ===================================================================== *)

Module Mock.

(** [[f"[{target_lang}] {text}" for text in texts]] *)
Definition translate_batch (texts : list string) (target_lang : string) : list string :=
  map (fun text => ("[" ++ target_lang ++ "] " ++ text)%string) texts.

End Mock.

(* ===================================================================== *)
(** * [lambda_handler.py]: the entry point [lambda_handler] *)
(* ===================================================================== *)

Module Entry.
Import Py Eff Handler.
Local Open Scope py_scope.

(** The two settings [lambda_handler] reads; an unset [source_url] is
    [None] or the empty string. *)
Record Config : Type := mkConfig {
  source_url : option string;
  destination_bucket_url_list : list string
}.

(** Library calls: [urllib.parse.unquote_plus], and [str(v)] as an f-string
    applies it to a value that is not a string. *)
Record Runtime : Type := mkRuntime {
  unquote_plus : string -> string;
  str_of_value : json -> string
}.

(** [needle in s] for two strings. *)
Fixpoint infix (needle s : string) : bool :=
  (String.prefix needle s
   || match s with
      | EmptyString => false
      | String _ s' => infix needle s'
      end)%bool.

(** [key in v] for a string [key]: a key of a dict, an element of a list,
    a substring of a string. *)
Definition contains (key : string) (v : json) : Res bool :=
  match v with
  | JObj kv => Ok (existsb (fun p => (fst p =? key)%string) kv)
  | JArr xs => Ok (existsb (fun x => match x with
                                     | JStr s => (s =? key)%string
                                     | _ => false
                                     end) xs)
  | JStr s => Ok (infix key s)
  | _ => Raise TypeError
  end.

(** [v[0]] *)
Definition first_item (v : json) : Res json :=
  match v with
  | JArr (x :: _) => Ok x
  | JArr [] => Raise (OtherError "IndexError: list index out of range")
  | JStr (String c _) => Ok (JStr (String c EmptyString))
  | JStr EmptyString => Raise (OtherError "IndexError: string index out of range")
  | JObj _ => Raise (KeyError "0")
  | _ => Raise TypeError
  end.

(** [{"statusCode": 200, "body": "Translation completed"}] *)
Definition completed : json :=
  JObj [("statusCode", JNum 200); ("body", JStr "Translation completed")].

Section WithRuntime.
Variable rt : Runtime.
Variable cfg : Config.
Variable w : World.

(** [f"{v}"] *)
Definition format (v : json) : string :=
  match v with
  | JStr s => s
  | _ => str_of_value rt v
  end.

(** [unquote_plus(v)]: a value that is not a string has no [replace]. *)
Definition unquote (v : json) : Res string :=
  match v with
  | JStr s => Ok (unquote_plus rt s)
  | _ => Raise (OtherError "AttributeError")
  end.

(** The source URL of an S3 event record. *)
Definition record_url (record : json) : Res string :=
  match getitem record "s3" with
  | Raise e => Raise e
  | Ok s3 =>
    match getitem s3 "bucket" with
    | Raise e => Raise e
    | Ok b =>
      match getitem b "name" with
      | Raise e => Raise e
      | Ok bucket =>
        match getitem s3 "object" with
        | Raise e => Raise e
        | Ok o =>
          match getitem o "key" with
          | Raise e => Raise e
          | Ok k =>
            match unquote k with
            | Raise e => Raise e
            | Ok key => Ok ("s3://" ++ format bucket ++ "/" ++ key)%string
            end
          end
        end
      end
    end
  end.

(** The "hybrid trigger": the configured source URL, replaced by the
    object of the first record when the event is an S3 event. *)
Definition event_source (event : json) : Res (option string) :=
  match contains "Records" event with
  | Raise e => Raise e
  | Ok false => Ok (source_url cfg)
  | Ok true =>
    match getitem event "Records" with
    | Raise e => Raise e
    | Ok records =>
      match first_item records with
      | Raise e => Raise e
      | Ok record =>
        match contains "s3" record with
        | Raise e => Raise e
        | Ok false => Ok (source_url cfg)
        | Ok true =>
          match record_url record with
          | Raise e => Raise e
          | Ok url => Ok (Some url)
          end
        end
      end
    end
  end.

Definition lambda_handler (event : json) : M (list Effect) json :=
  src <- lift (event_source event) ;;
  match src with
  | None | Some EmptyString =>
      raise (ValueError "No source URL provided via environment or event")
  | Some url =>
      match destination_bucket_url_list cfg with
      | [] => raise (ValueError "DESTINATION_BUCKET_URLS must be configured")
      | dest_urls =>
          run_translation w url dest_urls ;;;
          ret completed
      end
  end.

End WithRuntime.

End Entry.

(* ===================================================================== *)
(** * Vocabulary for statements about replies and traces *)
(* ===================================================================== *)

Module Vocabulary.
Import Py Eff.

(** Ascending order of the sort keys [int(x["key"])]. *)
Definition by_key (x y : json) : Prop := Smartling.key_of x <= Smartling.key_of y.

(** A reply item the code cannot use: [x["key"]] raises, or [int] rejects
    the key (a string key being ASCII), or [x["translationText"]] raises. *)
Definition malformed (x : json) : Prop :=
  (exists e, getitem x "key" = Raise e)
  \/ (exists k e, getitem x "key" = Ok k /\ int k = Raise e
                  /\ forall s, k = JStr s -> ascii_only s = true)
  \/ (exists e, getitem x "translationText" = Raise e).

(** [ps] are the [put_object] calls of the first destinations of
    [dest_urls], one each, in order. *)
Definition uploads_of (w : Handler.World) (feed : Handler.FeedMessage)
           (sj : option json) (dest_urls : list string) (ps : list Handler.Effect) : Prop :=
  exists k, Forall2 (fun d ev => Handler.put_for w feed sj d = Ok ev)
                    (firstn k dest_urls) ps.

End Vocabulary.

(* ===================================================================== *)
(** * Further concrete runs *)
(* ===================================================================== *)

Module Cases.
Import Py Eff Smartling.

(** The translator once the token of [Scenario.auth_ok "test-token" 3600]
    has been fetched at time 1000. *)
Definition with_fresh_token : State :=
  {| _token := JStr "test-token"; _token_expiry := 4540; clock_reads := 1;
     log := [AuthPost "user" "secret"] |}.

(** Two items share the key "0". *)
Definition tied_items : list json :=
  [Scenario.item "0" "A"; Scenario.item "0" "B"; Scenario.item "1" "C"].
Definition env_ties : Env :=
  {| time_at := Scenario.clock;
     auth_at := fun _ => Scenario.auth_ok "test-token" 3600;
     mt_at := fun _ => Scenario.mt_ok tied_items |}.

(** The second item has no [translationText]. *)
Definition no_text : json := JObj [("key", JStr "1")].
Definition env_no_text : Env :=
  {| time_at := Scenario.clock;
     auth_at := fun _ => Scenario.auth_ok "test-token" 3600;
     mt_at := fun _ => Scenario.mt_ok [Scenario.item "0" "Hola"; no_text] |}.

(** The second item has a key that is no integer. *)
Definition bad_key : json := Scenario.item "uno" "Uno".
Definition env_bad_key : Env :=
  {| time_at := Scenario.clock;
     auth_at := fun _ => Scenario.auth_ok "test-token" 3600;
     mt_at := fun _ => Scenario.mt_ok [Scenario.item "0" "Hola"; bad_key] |}.

(** The credentials are refused. *)
Definition env_rejected : Env :=
  {| time_at := Scenario.clock;
     auth_at := fun _ => Replied {| status_code := 401; body := None |};
     mt_at := fun _ => Scenario.mt_ok [Scenario.item "0" "Hola"] |}.

(** The authentication reply has a token and no [expiresIn]. *)
Definition token_only : json :=
  JObj [("response", JObj [("data", JObj [("accessToken", JStr "half")])])].
Definition env_no_expiry : Env :=
  {| time_at := Scenario.clock;
     auth_at := fun _ => Replied {| status_code := 200; body := Some token_only |};
     mt_at := fun _ => Scenario.mt_ok [Scenario.item "0" "Hola"] |}.


(** [Scenario.world] with other collaborators. *)
Definition world_with
           (fetch : string -> Res (string * Handler.FeedFormat))
           (process : Res (Handler.ProcessingMetrics * Handler.FeedMessage))
           (put : string -> Res unit) (close : Res unit) : Handler.World :=
  {| Handler.settings := Handler.settings (Scenario.world None);
     Handler.fetch_source := fetch;
     Handler.parse := Handler.parse (Scenario.world None);
     Handler.json_loads := Handler.json_loads (Scenario.world None);
     Handler.fetch_old_feed := Handler.fetch_old_feed (Scenario.world None);
     Handler.process_feed := fun _ _ _ _ _ _ _ => process;
     Handler.serialize := Handler.serialize (Scenario.world None);
     Handler.get_s3_parts := fun url => Ok ("test-bucket", url);
     Handler.put_object := fun _ key _ _ => put key;
     Handler.translator_close := close |}.

Definition fetch_ok : string -> Res (string * Handler.FeedFormat) :=
  fun _ => Ok ("<source bytes>", Handler.Fpb).
Definition translated : Res (Handler.ProcessingMetrics * Handler.FeedMessage) :=
  Ok ({| Handler.strings_translated := 2 |}, Scenario.sample_feed).

Definition two_destinations : list string := ["s3://b/alerts.pb"; "s3://b/alerts.json"].

(** The feed processor raises. *)
Definition world_processor_fails : Handler.World :=
  world_with fetch_ok (Raise (OtherError "processor")) (fun _ => Ok tt) (Ok tt).
(** The upload to the JSON destination is refused. *)
Definition world_put_fails : Handler.World :=
  world_with fetch_ok translated
             (fun key => if (key =? "s3://b/alerts.json")%string
                         then Raise (OtherError "AccessDenied") else Ok tt)
             (Ok tt).
(** Closing the translator raises. *)
Definition world_close_fails : Handler.World :=
  world_with fetch_ok translated (fun _ => Ok tt) (Raise RequestError).
(** The source cannot be fetched. *)
Definition world_fetch_fails : Handler.World :=
  world_with (fun _ => Raise RequestError) translated (fun _ => Ok tt) (Ok tt).
(** Everything succeeds. *)
Definition world_fine : Handler.World :=
  world_with fetch_ok translated (fun _ => Ok tt) (Ok tt).

(** The trace of a run on [two_destinations] that reaches both uploads. *)
Definition two_uploads : list Handler.Effect :=
  [Handler.FetchedSource Scenario.source_url;
   Handler.FetchedOldFeed "s3://b/alerts.json" Handler.Fjson;
   Handler.ProcessedFeed Handler.JobBatches;
   Handler.PutObject "test-bucket" "s3://b/alerts.pb" "<feed bytes>"
                     "application/x-protobuf";
   Handler.PutObject "test-bucket" "s3://b/alerts.json" "<feed bytes>" "application/json";
   Handler.ClosedTranslator].

(** The translator of [Scenario.stale] after a call that met a 401 and
    fetched a new token. *)
Definition refreshed : State :=
  {| _token := JStr "new-token"; _token_expiry := 4541; clock_reads := 2;
     log := [mt_request Scenario.me ["Hello"] "es" (JStr "stale");
             AuthPost "user" "secret";
             mt_request Scenario.me ["Hello"] "es" (JStr "new-token")] |}.

(** The entry point: a runtime whose [unquote_plus] turns "+" into a space,
    a configuration with a source, and events. *)
Fixpoint plus_to_space (s : string) : string :=
  match s with
  | EmptyString => EmptyString
  | String c s' => String (if Ascii.eqb c "+" then " "%char else c) (plus_to_space s')
  end.
Definition runtime : Entry.Runtime :=
  {| Entry.unquote_plus := plus_to_space; Entry.str_of_value := fun _ => "?" |}.
Definition config : Entry.Config :=
  {| Entry.source_url := Some "http://example.com/alerts.pb";
     Entry.destination_bucket_url_list := two_destinations |}.
Definition config_no_source : Entry.Config :=
  {| Entry.source_url := None; Entry.destination_bucket_url_list := two_destinations |}.
Definition s3_record (bucket key : string) : json :=
  JObj [("s3", JObj [("bucket", JObj [("name", JStr bucket)]);
                     ("object", JObj [("key", JStr key)])])].
Definition s3_event : json :=
  JObj [("Records", JArr [s3_record "source-bucket" "my+alerts.pb";
                          s3_record "other" "ignored.pb"])].
Definition scheduled_event : json := JObj [("source", JStr "aws.events")].
Definition empty_records : json := JObj [("Records", JArr [])].


(** The trace of the run started by [s3_event]. *)
Definition trace_s3 : list Handler.Effect :=
  [Handler.FetchedSource "s3://source-bucket/my alerts.pb";
   Handler.FetchedOldFeed "s3://b/alerts.json" Handler.Fjson;
   Handler.ProcessedFeed Handler.JobBatches;
   Handler.PutObject "test-bucket" "s3://b/alerts.pb" "<feed bytes>"
                     "application/x-protobuf";
   Handler.PutObject "test-bucket" "s3://b/alerts.json" "<feed bytes>" "application/json";
   Handler.ClosedTranslator].

End Cases.

(* ===================================================================== *)
(** * Facts about the Python built-ins *)
(* ===================================================================== *)

Section PyFacts.
Import Py.

Lemma rev_append_rev_append (s acc acc' : string) :
  rev_append (rev_append s acc) acc' = rev_append acc (s ++ acc')%string.
Proof.
  revert acc acc'. induction s as [|c s IH]; intros acc acc'; simpl.
  - reflexivity.
  - rewrite IH. reflexivity.
Qed.

Lemma srev_involutive (s : string) : srev (srev s) = s.
Proof.
  unfold srev. rewrite rev_append_rev_append. simpl.
  induction s as [|c s IH]; simpl; [reflexivity | now rewrite IH].
Qed.

Lemma digit_not_space (c : ascii) (d : Z) : digit_of c = Some d -> is_space c = false.
Proof.
  unfold digit_of, is_space. cbv zeta.
  destruct (48 <=? nat_of_ascii c)%nat eqn:H1; [|discriminate].
  destruct (nat_of_ascii c <=? 57)%nat eqn:H2; [|discriminate].
  intros _. apply Nat.leb_le in H1, H2.
  apply orb_false_iff. split.
  - apply andb_false_iff. right. apply Nat.leb_gt. lia.
  - apply Nat.eqb_neq. lia.
Qed.

Lemma lstrip_digits (s : string) : all_digits s = true -> lstrip s = s.
Proof.
  destruct s as [|c s]; simpl; [reflexivity|].
  destruct (digit_of c) eqn:E; [|discriminate].
  intros _. now rewrite (digit_not_space _ _ E).
Qed.

Lemma all_digits_rev_append (s acc : string) :
  all_digits s = true -> all_digits acc = true -> all_digits (rev_append s acc) = true.
Proof.
  revert acc. induction s as [|c s IH]; intros acc Hs Hacc; simpl in *.
  - exact Hacc.
  - destruct (digit_of c) eqn:E; [|discriminate].
    apply IH; [exact Hs|]. simpl. now rewrite E.
Qed.

Lemma strip_digits (s : string) : all_digits s = true -> strip s = s.
Proof.
  intro H. unfold strip. rewrite (lstrip_digits s H).
  rewrite lstrip_digits.
  - apply srev_involutive.
  - apply all_digits_rev_append; [exact H | reflexivity].
Qed.

Lemma all_digits_uint (d : Decimal.uint) :
  all_digits (NilEmpty.string_of_uint d) = true.
Proof. induction d; simpl; auto. Qed.

Lemma to_uint_nonnil (n : nat) : Nat.to_uint n <> Decimal.Nil.
Proof.
  rewrite <- (Unsigned.of_to n) at 1. rewrite Unsigned.to_of.
  apply DecimalFacts.unorm_nonnil.
Qed.

Lemma int_digits_digit (acc d : Z) (prev : bool) (c : ascii) (s : string) :
  digit_of c = Some d ->
  int_digits acc prev (String c s) = int_digits (10 * acc + d) true s.
Proof. intro H. cbn [int_digits]. now rewrite H. Qed.

Lemma int_digits_uint (d : Decimal.uint) (a : nat) (prev : bool) :
  d <> Decimal.Nil \/ prev = true ->
  int_digits (Z.of_nat a) prev (NilEmpty.string_of_uint d)
  = Some (Z.of_nat (Nat.of_uint_acc d a)).
Proof.
  revert a prev.
  induction d; intros a prev H;
    cbn [NilEmpty.string_of_uint Nat.of_uint_acc];
    try (first [ rewrite (int_digits_digit _ 0) by reflexivity
               | rewrite (int_digits_digit _ 1) by reflexivity
               | rewrite (int_digits_digit _ 2) by reflexivity
               | rewrite (int_digits_digit _ 3) by reflexivity
               | rewrite (int_digits_digit _ 4) by reflexivity
               | rewrite (int_digits_digit _ 5) by reflexivity
               | rewrite (int_digits_digit _ 6) by reflexivity
               | rewrite (int_digits_digit _ 7) by reflexivity
               | rewrite (int_digits_digit _ 8) by reflexivity
               | rewrite (int_digits_digit _ 9) by reflexivity ];
         match goal with
         | |- int_digits ?z true _ = Some (Z.of_nat (Nat.of_uint_acc _ ?n)) =>
             replace z with (Z.of_nat n)
               by (rewrite ?Nat.tail_mul_spec; lia);
             apply IHd; now right
         end).
  destruct H as [H|H]; [congruence | now subst].
Qed.

(** [int(str(i)) == i] *)
Lemma int_of_string_str (i : nat) : int_of_string (str i) = Some (Z.of_nat i).
Proof.
  unfold int_of_string, str.
  rewrite strip_digits by apply all_digits_uint.
  pose proof (to_uint_nonnil i) as Hnn.
  pose proof (int_digits_uint (Nat.to_uint i) 0 false (or_introl Hnn)) as H.
  change (Z.of_nat 0) with 0 in H.
  change (Nat.of_uint_acc (Nat.to_uint i) 0) with (Nat.of_uint (Nat.to_uint i)) in H.
  rewrite Unsigned.of_to in H.
  destruct (Nat.to_uint i); simpl in *; exact H.
Qed.

Lemma int_str (i : nat) : int (JStr (str i)) = Ok (Z.of_nat i).
Proof. simpl. now rewrite int_of_string_str. Qed.

(** [endswith] is the suffix test. *)
Lemma endswith_spec (s suffix : string) :
  endswith s suffix = true <-> exists p, s = (p ++ suffix)%string.
Proof.
  induction s as [|c s IH]; cbn [endswith].
  - rewrite orb_false_r, String.eqb_eq. split.
    + intros <-. now exists EmptyString.
    + intros [p Hp]. destruct p; simpl in Hp; [auto | discriminate].
  - rewrite orb_true_iff, String.eqb_eq, IH. split.
    + intros [<- | [p ->]].
      * now exists EmptyString.
      * now exists (String c p).
    + intros [p Hp]. destruct p as [|c' p]; simpl in Hp.
      * now left.
      * right. exists p. now inversion Hp.
Qed.

End PyFacts.

(* ===================================================================== *)
(** * Facts about the stable sort *)
(* ===================================================================== *)

Section SortFacts.
Import Py.
Context {A : Type}.

Lemma insert_perm (x : Z * A) (l : list (Z * A)) : Permutation (insert x l) (x :: l).
Proof.
  induction l as [|y l IH]; simpl.
  - apply Permutation_refl.
  - destruct (fst x <=? fst y).
    + apply Permutation_refl.
    + eapply Permutation_trans; [apply perm_skip, IH | apply perm_swap].
Qed.

Lemma sort_perm (l : list (Z * A)) : Permutation (sort l) l.
Proof.
  induction l as [|x l IH]; simpl.
  - constructor.
  - eapply Permutation_trans; [apply insert_perm | now apply perm_skip].
Qed.

Lemma sort_length (l : list (Z * A)) : List.length (sort l) = List.length l.
Proof. apply Permutation_length, sort_perm. Qed.

Lemma insert_sorted (x : Z * A) (l : list (Z * A)) :
  StronglySorted key_le l -> StronglySorted key_le (insert x l).
Proof.
  induction 1 as [|y l Hs IH Hy]; simpl.
  - repeat constructor.
  - destruct (Z.leb_spec (fst x) (fst y)) as [Hxy|Hxy].
    + constructor; [now constructor|].
      constructor; [exact Hxy|].
      eapply Forall_impl; [|exact Hy].
      intros z Hz. unfold key_le in *. lia.
    + constructor; [exact IH|].
      eapply Permutation_Forall; [apply Permutation_sym, insert_perm|].
      constructor; [unfold key_le; lia | exact Hy].
Qed.

Lemma sort_sorted (l : list (Z * A)) : StronglySorted key_le (sort l).
Proof.
  induction l as [|x l IH]; simpl; [constructor | now apply insert_sorted].
Qed.

(** A list in strictly increasing key order is the only sorted arrangement
    of its elements. *)
Lemma sorted_unique (l1 l2 : list (Z * A)) :
  StronglySorted key_lt l1 -> StronglySorted key_le l2 ->
  Permutation l1 l2 -> l1 = l2.
Proof.
  intros H1. revert l2.
  induction H1 as [|a l1 Hs1 IH Ha]; intros l2 H2 HP.
  - apply Permutation_nil in HP. now subst.
  - destruct l2 as [|b l2].
    + apply Permutation_sym, Permutation_nil in HP. discriminate.
    + inversion H2 as [|? ? Hs2 Hb]; subst.
      assert (Hab : a = b).
      { assert (Hin_a : In a (b :: l2))
          by (eapply Permutation_in; [exact HP | now left]).
        assert (Hin_b : In b (a :: l1))
          by (eapply Permutation_in; [apply Permutation_sym, HP | now left]).
        destruct Hin_a as [->|Hin_a]; [reflexivity|].
        destruct Hin_b as [->|Hin_b]; [reflexivity|].
        rewrite Forall_forall in Ha, Hb.
        specialize (Ha _ Hin_b). specialize (Hb _ Hin_a).
        unfold key_lt, key_le in *. lia. }
      subst b. f_equal. apply IH; [exact Hs2|].
      eapply Permutation_cons_inv, HP.
Qed.

Lemma sort_of_permutation (l ordered : list (Z * A)) :
  StronglySorted key_lt ordered -> Permutation l ordered -> sort l = ordered.
Proof.
  intros Hs HP. symmetry. apply sorted_unique.
  - exact Hs.
  - apply sort_sorted.
  - eapply Permutation_trans; [apply Permutation_sym, HP | apply Permutation_sym, sort_perm].
Qed.

End SortFacts.

(* ===================================================================== *)
(** * Facts about the effect monad *)
(* ===================================================================== *)

Section EffFacts.
Import Py Eff.
Context {S A B : Type}.

Lemma mapM_pure (f : A -> M S B) (g : A -> B) (l : list A) (st : S) :
  (forall x st', In x l -> f x st' = (Ok (g x), st')) ->
  mapM f l st = (Ok (map g l), st).
Proof.
  induction l as [|x l IH]; intro H; simpl.
  - reflexivity.
  - unfold bind. rewrite H by now left.
    rewrite IH by (intros; apply H; now right). reflexivity.
Qed.

Lemma mapM_length (f : A -> M S B) (l : list A) (st st' : S) (out : list B) :
  mapM f l st = (Ok out, st') -> List.length out = List.length l.
Proof.
  revert st out. induction l as [|x l IH]; intros st out; simpl.
  - unfold ret. intro H. now inversion H.
  - unfold bind, ret. destruct (f x st) as [[y|e] st1]; [|discriminate].
    destruct (mapM f l st1) as [[ys|e] st2] eqn:E; [|discriminate].
    intro H. inversion H; subst. simpl. f_equal. eapply IH, E.
Qed.

End EffFacts.

(* ===================================================================== *)
(** * Facts about [SmartlingTranslator] *)
(* ===================================================================== *)

Section SmartlingFacts.
Import Py Eff Smartling.
Variable env : Env.
Variable self : Self.

Lemma auth_calls_app (l1 l2 : list Event) :
  auth_calls (l1 ++ l2) = (auth_calls l1 + auth_calls l2)%nat.
Proof. unfold auth_calls. now rewrite filter_app, length_app. Qed.

Lemma mt_calls_app (l1 l2 : list Event) :
  mt_calls (l1 ++ l2) = (mt_calls l1 + mt_calls l2)%nat.
Proof. unfold mt_calls. now rewrite filter_app, length_app. Qed.

Ltac eff_unfold :=
  unfold _get_token, bind, time_time, get_token_attr, get_expiry_attr, post,
    raise_for_status, resp_json, lift, set_token_attr, set_expiry_attr,
    add_seconds, ret, raise; cbv beta iota.

Lemma get_token_hit (st : State) :
  cache_hit env st = true ->
  _get_token env self st = (Ok (_token st), with_tick st).
Proof.
  unfold cache_hit. eff_unfold. cbn [_token _token_expiry with_tick].
  intros ->. reflexivity.
Qed.

Ltac eff_case :=
  cbv beta iota;
  match goal with
  | |- context [match auth_at env ?k with _ => _ end] =>
      let c := fresh "c" in let b := fresh "b" in
      destruct (auth_at env k) as [[c b]|] eqn:?
  | |- context [match mt_at env ?k with _ => _ end] =>
      let c := fresh "c" in let b := fresh "b" in
      destruct (mt_at env k) as [[c b]|] eqn:?
  | |- context [if (?x && ?y)%bool then _ else _] => destruct (x && y)%bool eqn:?
  | |- context [match getitem ?a ?k with _ => _ end] => destruct (getitem a k) eqn:?
  | |- context [match iter ?a with _ => _ end] => destruct (iter a) eqn:?
  end.

Ltac done_raise := solve [do 3 eexists; split; [reflexivity | intros ? [=]]].

Lemma get_token_miss (st : State) :
  cache_hit env st = false ->
  exists r tokv expv,
    _get_token env self st
    = (r, {| _token := tokv; _token_expiry := expv;
             clock_reads := S (clock_reads st);
             log := log st ++ [AuthPost (user_id self) (user_secret self)] |})
    /\ forall tok, r = Ok tok ->
         tokv = tok
         /\ exists c data e,
              auth_at env (auth_calls (log st)) = Replied {| status_code := c; body := Some data |}
              /\ ((200 <=? c) && (c <=? 299))%bool = true
              /\ response_data data "accessToken" = Ok tok
              /\ response_data data "expiresIn" = Ok e
              /\ add_seconds (time_at env (clock_reads st)) e st = (Ok expv, st).
Proof.
  unfold cache_hit. eff_unfold. cbn [_token _token_expiry with_tick log clock_reads].
  intros ->.
  eff_case; [|done_raise].
  cbn [status_code body].
  eff_case; [|done_raise].
  destruct b as [data|]; cbv beta iota; [|done_raise].
  eff_case; [|done_raise].
  eff_case; [|done_raise].
  eff_case; [|done_raise].
  eff_case; [|done_raise].
  assert (Hacc : response_data data "accessToken" = Ok a1)
    by (unfold response_data; now rewrite Heqr0, Heqr1).
  assert (Hexp : response_data data "expiresIn" = Ok a2)
    by (unfold response_data; now rewrite Heqr0, Heqr1).
  cbn [with_tick log] in Heqr.
  destruct a2; cbv beta iota;
    unfold with_expiry, with_token, with_event, with_tick;
    cbn [_token _token_expiry clock_reads log];
    try done_raise;
    (do 3 eexists; split; [reflexivity|]; intros tok Htok;
     injection Htok as Htok; subst tok; split; [reflexivity|];
     do 3 eexists; repeat split; [exact Heqr | exact Heqb0 | exact Hacc | exact Hexp | reflexivity]).
Qed.


Lemma stateless_ret {X} (x : X) : stateless (ret x).
Proof. intro st. now eexists. Qed.
Lemma stateless_raise {X} (e : exn) : stateless (@raise State X e).
Proof. intro st. now eexists. Qed.
Lemma stateless_lift {X} (r : Res X) : stateless (lift r).
Proof. intro st. now eexists. Qed.
Lemma stateless_bind {X Y} (c : M State X) (f : X -> M State Y) :
  stateless c -> (forall x, stateless (f x)) -> stateless (bind c f).
Proof.
  intros Hc Hf st. unfold bind. destruct (Hc st) as [[x|e] ->].
  - apply Hf.
  - now eexists.
Qed.
Lemma stateless_mapM {X Y} (f : X -> M State Y) (l : list X) :
  (forall x, stateless (f x)) -> stateless (mapM f l).
Proof.
  intro Hf. induction l as [|x l IH]; simpl.
  - apply stateless_ret.
  - apply stateless_bind; [apply Hf|]. intro y.
    apply stateless_bind; [exact IH|]. intro ys. apply stateless_ret.
Qed.

Lemma stateless_raise_for_status (r : Response) : stateless (raise_for_status r).
Proof.
  unfold raise_for_status.
  destruct ((200 <=? status_code r) && (status_code r <=? 299))%bool;
    [apply stateless_ret | apply stateless_raise].
Qed.

Lemma stateless_resp_json (r : Response) : stateless (resp_json r).
Proof.
  unfold resp_json. destruct (body r); [apply stateless_ret | apply stateless_raise].
Qed.

Lemma stateless_sort_key (x : json) : stateless (sort_key x).
Proof.
  unfold sort_key. apply stateless_bind; [apply stateless_lift|].
  intro k. apply stateless_lift.
Qed.

Lemma stateless_sorted_by_key (items : list json) : stateless (sorted_by_key items).
Proof.
  unfold sorted_by_key. apply stateless_bind.
  - apply stateless_mapM. intro x. apply stateless_bind; [apply stateless_sort_key|].
    intro k. apply stateless_ret.
  - intro keyed. apply stateless_ret.
Qed.

Variable texts : list string.
Variable target_lang : string.

Lemma do_translate_batch_no_token (st st1 : State) (e : exn) :
  _get_token env self st = (Raise e, st1) ->
  _do_translate_batch env self texts target_lang st = (Raise e, st1).
Proof. intro H. unfold _do_translate_batch, bind. now rewrite H. Qed.

Lemma do_translate_batch_token (st st1 : State) (tok : json) :
  _get_token env self st = (Ok tok, st1) ->
  exists r, _do_translate_batch env self texts target_lang st
            = (r, with_event (mt_request self texts target_lang tok) st1).
Proof.
  intro H. unfold _do_translate_batch. unfold bind at 1. rewrite H.
  unfold bind at 1. unfold post.
  destruct (mt_at env (mt_calls (log st1))) as [resp|]; [|now eexists].
  apply stateless_bind; [apply stateless_raise_for_status|]. intros _.
  apply stateless_bind; [apply stateless_resp_json|]. intro data.
  repeat (apply stateless_bind; [apply stateless_lift|]; intro).
  apply stateless_bind; [apply stateless_sorted_by_key|]. intro sorted_items.
  apply stateless_mapM. intro item. apply stateless_lift.
Qed.


Lemma response_data_inv (data : json) (field : string) (v : json) :
  response_data data field = Ok v ->
  exists r d, getitem data "response" = Ok r /\ getitem r "data" = Ok d
              /\ getitem d field = Ok v.
Proof.
  unfold response_data.
  destruct (getitem data "response") as [r|] eqn:Hr; [|discriminate].
  destruct (getitem r "data") as [d|] eqn:Hd; [|discriminate].
  intro H. exists r, d. repeat split; assumption.
Qed.

(** Once a token is there and the provider replied 2xx with an [items]
    value, what is left is the sort and the comprehension. *)
Lemma do_translate_batch_reply (st st1 : State) (tok data items : json)
      (elems : list json) (c : Z) :
  _get_token env self st = (Ok tok, st1) ->
  mt_at env (mt_calls (log st1)) = Replied {| status_code := c; body := Some data |} ->
  ((200 <=? c) && (c <=? 299))%bool = true ->
  response_data data "items" = Ok items ->
  iter items = Ok elems ->
  _do_translate_batch env self texts target_lang st
  = bind (sorted_by_key elems)
         (mapM (fun item => lift (getitem item "translationText")))
         (with_event (mt_request self texts target_lang tok) st1).
Proof.
  intros Htok Hreply Hc Hitems Helems.
  apply response_data_inv in Hitems as (r & d & Hr & Hd & Hi).
  unfold _do_translate_batch. unfold bind at 1. rewrite Htok.
  unfold bind at 1. unfold post. rewrite Hreply.
  unfold bind at 1. unfold raise_for_status. cbn [status_code]. rewrite Hc.
  unfold ret at 1. cbv beta iota.
  unfold bind at 1. unfold resp_json. cbn [body]. unfold ret at 1. cbv beta iota.
  unfold bind at 1, lift at 1. rewrite Hr.
  unfold bind at 1, lift at 1. rewrite Hd.
  unfold bind at 1, lift at 1. rewrite Hi.
  unfold bind at 1, lift at 1. rewrite Helems.
  reflexivity.
Qed.

Lemma answers_from_keys (i : nat) (ordered translations : list json) :
  answers_from i ordered translations ->
  forall x, In x ordered ->
    exists j, (i <= j)%nat /\ getitem x "key" = Ok (JStr (str j)).
Proof.
  revert i translations.
  induction ordered as [|y ordered IH]; intros i [|t ts] H x Hin; simpl in *;
    try contradiction.
  destruct H as (Hk & _ & Hrest). destruct Hin as [<-|Hin].
  - exists i. split; [lia | exact Hk].
  - destruct (IH _ _ Hrest _ Hin) as (j & Hj & Hx). exists j. split; [lia | exact Hx].
Qed.

Lemma key_of_str (x : json) (j : nat) :
  getitem x "key" = Ok (JStr (str j)) -> key_of x = Z.of_nat j.
Proof. intro H. unfold key_of. now rewrite H, int_str. Qed.

Lemma sort_key_str (x : json) (j : nat) (st : State) :
  getitem x "key" = Ok (JStr (str j)) -> sort_key x st = (Ok (Z.of_nat j), st).
Proof. intro H. unfold sort_key, bind, lift. now rewrite H, int_str. Qed.

Lemma answers_from_sorted (i : nat) (ordered translations : list json) :
  answers_from i ordered translations ->
  StronglySorted key_lt (map keyed ordered).
Proof.
  revert i translations.
  induction ordered as [|y ordered IH]; intros i [|t ts] H; simpl in *;
    try contradiction; [constructor|].
  destruct H as (Hk & _ & Hrest). constructor; [eapply IH, Hrest|].
  apply Forall_forall. intros p Hp. apply in_map_iff in Hp as (x & <- & Hx).
  destruct (answers_from_keys _ _ _ Hrest x Hx) as (j & Hj & Hkx).
  unfold key_lt, keyed. cbn [fst].
  rewrite (key_of_str _ _ Hk), (key_of_str _ _ Hkx). lia.
Qed.

Lemma answers_from_texts (i : nat) (ordered translations : list json) (st : State) :
  answers_from i ordered translations ->
  mapM (fun item => lift (getitem item "translationText")) ordered st
  = (Ok translations, st).
Proof.
  revert i translations.
  induction ordered as [|y ordered IH]; intros i [|t ts] H; simpl in *;
    try contradiction; [reflexivity|].
  destruct H as (_ & Ht & Hrest).
  unfold bind, lift at 1. rewrite Ht. now rewrite (IH _ _ Hrest).
Qed.


(** Whatever the order of the reply, sorting restores the request order. *)
Lemma sorted_by_key_permutation (elems ordered translations : list json) (st : State) :
  Permutation elems ordered ->
  answers_from 0 ordered translations ->
  sorted_by_key elems st = (Ok ordered, st).
Proof.
  intros HP Hans. unfold sorted_by_key. unfold bind at 1.
  rewrite (mapM_pure _ keyed).
  - unfold ret. f_equal. f_equal.
    rewrite (sort_of_permutation _ (map keyed ordered)).
    + rewrite map_map. unfold keyed. cbn [snd]. apply map_id.
    + eapply answers_from_sorted, Hans.
    + now apply Permutation_map.
  - intros x st' Hx.
    assert (Hin : In x ordered) by (eapply Permutation_in; eassumption).
    destruct (answers_from_keys _ _ _ Hans x Hin) as (j & _ & Hk).
    unfold bind. rewrite (sort_key_str _ _ _ Hk). unfold ret, keyed.
    now rewrite (key_of_str _ _ Hk).
Qed.

Lemma sorted_by_key_length (elems sorted_items : list json) (st st' : State) :
  sorted_by_key elems st = (Ok sorted_items, st') ->
  List.length sorted_items = List.length elems.
Proof.
  unfold sorted_by_key. unfold bind at 1.
  destruct (mapM _ elems st) as [[keyed_items|e] st1] eqn:E; [|discriminate].
  unfold ret. intro H. injection H as <- _.
  rewrite length_map, sort_length. eapply mapM_length, E.
Qed.

End SmartlingFacts.

Section SmartlingCalls.
Import Py Eff Smartling.
Variable env : Env.
Variable self : Self.
Variable texts : list string.
Variable target_lang : string.

Lemma get_token_refresh (st : State) (c e : Z) (data tok : json) :
  cache_hit env st = false ->
  auth_at env (auth_calls (log st)) = Replied {| status_code := c; body := Some data |} ->
  ((200 <=? c) && (c <=? 299))%bool = true ->
  response_data data "accessToken" = Ok tok ->
  response_data data "expiresIn" = Ok (JNum e) ->
  _get_token env self st
  = (Ok tok, {| _token := tok;
                _token_expiry := time_at env (clock_reads st) + e - 60;
                clock_reads := S (clock_reads st);
                log := log st ++ [AuthPost (user_id self) (user_secret self)] |}).
Proof.
  intros Hmiss Hreply Hc Htok Hexp.
  destruct (get_token_miss env self st Hmiss) as (r & tokv & expv & Hrun & _).
  apply response_data_inv in Htok as (r1 & d1 & Hr1 & Hd1 & Ha).
  apply response_data_inv in Hexp as (r2 & d2 & Hr2 & Hd2 & He).
  rewrite Hr1 in Hr2. injection Hr2 as <-. rewrite Hd1 in Hd2. injection Hd2 as <-.
  clear Hrun.
  unfold cache_hit in Hmiss.
  unfold _get_token, bind, time_time, get_token_attr, get_expiry_attr.
  cbn [with_tick _token _token_expiry clock_reads log]. rewrite Hmiss.
  unfold post. cbn [log with_tick]. rewrite Hreply.
  unfold raise_for_status. cbn [status_code]. rewrite Hc.
  unfold resp_json, lift, set_token_attr, set_expiry_attr, add_seconds.
  unfold ret, raise. cbn [body]. cbv beta iota.
  rewrite Hr1. cbv beta iota. rewrite Hd1. cbv beta iota.
  rewrite Ha. cbv beta iota. rewrite He. cbv beta iota. reflexivity.
Qed.

Lemma nse_ret {X} (x : X) : no_status_error (ret x).
Proof. intros st e st' [=]. Qed.
Lemma nse_bind {X Y} (c : M State X) (f : X -> M State Y) :
  no_status_error c -> (forall x, no_status_error (f x)) -> no_status_error (bind c f).
Proof.
  intros Hc Hf st e st'. unfold bind.
  destruct (c st) as [[x|e0] st0] eqn:E.
  - apply Hf.
  - intros [= <- <-]. eapply Hc, E.
Qed.
Lemma nse_mapM {X Y} (f : X -> M State Y) (l : list X) :
  (forall x, no_status_error (f x)) -> no_status_error (mapM f l).
Proof.
  intro Hf. induction l as [|x l IH]; simpl.
  - apply nse_ret.
  - apply nse_bind; [apply Hf|]. intro y.
    apply nse_bind; [exact IH|]. intro ys. apply nse_ret.
Qed.
Lemma nse_getitem (v : json) (k : string) : no_status_error (lift (getitem v k)).
Proof.
  intros st e st'. unfold lift, getitem.
  destruct v; try (intros [= <- <-]; discriminate).
  destruct (assoc k kv); intros [= <- <-]; discriminate.
Qed.
Lemma nse_int (v : json) : no_status_error (lift (int v)).
Proof.
  intros st e st'. unfold lift, int.
  destruct v; try (intros [= <- <-]; discriminate).
  destruct (int_of_string s); intros [= <- <-]; discriminate.
Qed.
Lemma nse_iter (v : json) : no_status_error (lift (iter v)).
Proof.
  intros st e st'. unfold lift, iter.
  destruct v; intros [= <- <-]; discriminate.
Qed.
Lemma nse_resp_json (r : Response) : no_status_error (resp_json r).
Proof.
  intros st e st'. unfold resp_json, ret, raise.
  destruct (body r); intros [= <- <-]; discriminate.
Qed.
Lemma nse_sorted_by_key (l : list json) : no_status_error (sorted_by_key l).
Proof.
  unfold sorted_by_key. apply nse_bind.
  - apply nse_mapM. intro x. apply nse_bind.
    + unfold sort_key. apply nse_bind; [apply nse_getitem|]. intro k. apply nse_int.
    + intro k. apply nse_ret.
  - intro k. apply nse_ret.
Qed.

(** A status error of an attempt that had its token is the status of the
    translation reply. *)
Lemma do_translate_batch_status (st st1 st' : State) (tok : json) (s : Z) :
  _get_token env self st = (Ok tok, st1) ->
  _do_translate_batch env self texts target_lang st = (Raise (HTTPStatusError s), st') ->
  exists resp, mt_at env (mt_calls (log st1)) = Replied resp /\ status_code resp = s.
Proof.
  intros Htok. unfold _do_translate_batch. unfold bind at 1. rewrite Htok.
  unfold bind at 1. unfold post.
  destruct (mt_at env (mt_calls (log st1))) as [resp|]; [|discriminate].
  intro H. exists resp. split; [reflexivity|].
  revert H. unfold bind at 1. unfold raise_for_status.
  destruct ((200 <=? status_code resp) && (status_code resp <=? 299))%bool.
  - unfold ret at 1. cbv beta iota. intro H. exfalso.
    revert H.
    match goal with |- ?c ?st = _ -> _ =>
      assert (Hn : no_status_error c) end.
    { apply nse_bind; [apply nse_resp_json|]. intro data.
      repeat (apply nse_bind; [first [apply nse_getitem | apply nse_iter]|]; intro).
      apply nse_bind; [apply nse_sorted_by_key|]. intro.
      apply nse_mapM. intro. apply nse_getitem. }
    intro H. eapply Hn; [exact H | reflexivity].
  - unfold raise. now intros [= <- _].
Qed.

(** One attempt sends at most one request of each kind. *)
Lemma do_translate_batch_calls (st st' : State) (r : Res (list json)) :
  _do_translate_batch env self texts target_lang st = (r, st') ->
  exists evs, log st' = log st ++ evs
              /\ (auth_calls evs <= 1)%nat /\ (mt_calls evs <= 1)%nat.
Proof.
  intro H.
  destruct (cache_hit env st) eqn:Hhit.
  - pose proof (get_token_hit env self st Hhit) as Htok.
    destruct (do_translate_batch_token env self texts target_lang _ _ _ Htok) as [r' Hr'].
    rewrite Hr' in H. injection H as _ <-.
    eexists. split; [reflexivity|]. cbn. lia.
  - destruct (get_token_miss env self st Hhit) as (rt & tokv & expv & Htok & _).
    destruct rt as [tok|e].
    + destruct (do_translate_batch_token env self texts target_lang _ _ _ Htok) as [r' Hr'].
      rewrite Hr' in H. injection H as _ <-.
      cbn [with_event log]. rewrite <- app_assoc.
      eexists. split; [reflexivity|]. cbn. lia.
    + rewrite (do_translate_batch_no_token env self texts target_lang _ _ _ Htok) in H.
      injection H as _ <-. cbn [log].
      eexists. split; [reflexivity|]. cbn. lia.
Qed.

End SmartlingCalls.

(* ===================================================================== *)
(** * [translate_batch]: retry, ordering, token reuse *)
(* ===================================================================== *)

Import Py Eff Smartling.

Section TranslateBatchFacts.
Variable env : Env.
Variable self : Self.
Variable texts : list string.
Variable target_lang : string.
Hypothesis nonempty : texts <> [].

Lemma translate_batch_first_attempt (st st1 : State) (r1 : Res (list json)) :
  _do_translate_batch env self texts target_lang st = (r1, st1) ->
  r1 <> Raise (HTTPStatusError 401) ->
  translate_batch env self texts target_lang st = (r1, st1).
Proof.
  intros H Hne. unfold translate_batch.
  destruct texts as [|t ts]; [contradiction|].
  unfold try_except. rewrite H.
  destruct r1 as [out|e]; [reflexivity|].
  destruct e; try reflexivity.
  destruct (Z.eqb_spec status 401) as [->|]; [contradiction | reflexivity].
Qed.

Lemma translate_batch_retry (st st1 : State) :
  _do_translate_batch env self texts target_lang st = (Raise (HTTPStatusError 401), st1) ->
  translate_batch env self texts target_lang st
  = _do_translate_batch env self texts target_lang (with_token JNull st1).
Proof.
  intros H. unfold translate_batch.
  destruct texts as [|t ts]; [contradiction|].
  unfold try_except. rewrite H. reflexivity.
Qed.

(** An attempt that starts without a token authenticates first, and sends
    its translation request, if any, with the token just received. *)
Lemma do_translate_batch_fresh (st st2 : State) (r2 : Res (list json)) :
  truthy (_token st) = false ->
  _do_translate_batch env self texts target_lang st = (r2, st2) ->
  exists rest,
    log st2 = log st ++ AuthPost (user_id self) (user_secret self) :: rest
    /\ ((rest = [] /\ is_ok r2 = false)
        \/ exists tok c data,
             rest = [mt_request self texts target_lang tok]
             /\ auth_at env (auth_calls (log st))
                = Replied {| status_code := c; body := Some data |}
             /\ response_data data "accessToken" = Ok tok).
Proof.
  intros Hnone H.
  assert (Hmiss : cache_hit env st = false) by (unfold cache_hit; now rewrite Hnone).
  destruct (get_token_miss env self st Hmiss) as (rt & tokv & expv & Htok & Hok).
  destruct rt as [tok|e].
  - destruct (do_translate_batch_token env self texts target_lang _ _ _ Htok) as [r' Hr'].
    rewrite Hr' in H. injection H as _ <-.
    destruct (Hok tok eq_refl) as (_ & c & data & e & Hreply & _ & Hacc & _).
    exists [mt_request self texts target_lang tok]. cbn [with_event log].
    rewrite <- app_assoc. split; [reflexivity|].
    right. now exists tok, c, data.
  - rewrite (do_translate_batch_no_token env self texts target_lang _ _ _ Htok) in H.
    injection H as <- <-. exists []. cbn [log]. split; [reflexivity|]. now left.
Qed.

End TranslateBatchFacts.

(** C8.  For an empty sequence of texts [translate_batch] returns the
    empty result at once: the translator is left exactly as it was, so no
    clock reading, no authentication request and no translation request
    took place. *)
Theorem empty_texts_no_network (env : Env) (self : Self) (target_lang : string) (st : State) :
  translate_batch env self [] target_lang st = (Ok [], st).
Proof. reflexivity. Qed.

Lemma nth_error_enumerate_from {A} (k i : nat) (l : list A) :
  nth_error (enumerate_from k l) i = option_map (fun t => ((k + i)%nat, t)) (nth_error l i).
Proof.
  revert k i. induction l as [|x l IH]; intros k [|i]; simpl; try reflexivity.
  - now rewrite Nat.add_0_r.
  - rewrite IH. now rewrite Nat.add_succ_r.
Qed.

Lemma nth_error_request_items (texts : list string) (i : nat) :
  nth_error (request_items texts) i = option_map (fun t => (str i, t)) (nth_error texts i).
Proof.
  unfold request_items. rewrite nth_error_map, nth_error_enumerate_from.
  now destruct (nth_error texts i).
Qed.

(** C3.  The router strategy sends the i-th text under the key [str(i)],
    and sorts the reply items on their numeric key before it reads the
    translations: whenever the reply holds the answers to the keys
    "0", "1", ... in any order ([Permutation elems ordered]), the output
    lists the translations in key order, so position i holds the
    translation of [texts[i]]. *)
Theorem router_output_in_request_order
        (env : Env) (self : Self) (texts : list string) (target_lang : string)
        (st st1 : State) (tok data : json) (c : Z)
        (elems ordered translations : list json) :
  texts <> [] ->
  _get_token env self st = (Ok tok, st1) ->
  mt_at env (mt_calls (log st1)) = Replied {| status_code := c; body := Some data |} ->
  ((200 <=? c) && (c <=? 299))%bool = true ->
  response_data data "items" = Ok (JArr elems) ->
  Permutation elems ordered ->
  answers_from 0 ordered translations ->
  translate_batch env self texts target_lang st
  = (Ok translations, with_event (mt_request self texts target_lang tok) st1)
  /\ forall i, nth_error (request_items texts) i
               = option_map (fun t => (str i, t)) (nth_error texts i).
Proof.
  intros Hne Htok Hreply Hc Hitems HP Hans.
  split; [|apply nth_error_request_items].
  apply translate_batch_first_attempt; [exact Hne | | discriminate].
  rewrite (do_translate_batch_reply env self texts target_lang _ _ _ _ _ _ _
             Htok Hreply Hc Hitems eq_refl).
  unfold bind. rewrite (sorted_by_key_permutation _ _ _ _ HP Hans).
  eapply answers_from_texts, Hans.
Qed.





(** The code itself does not compare the reply with the request: when the
    provider answers two texts with one item, the call returns normally
    with one string. *)
Example reply_is_not_checked_against_request :
  exists out st,
    translate_batch Scenario.env_hola Scenario.me ["Hello"; "World"] "es" init = (Ok out, st)
    /\ List.length out <> List.length ["Hello"; "World"].
Proof. do 2 eexists. split; [vm_compute; reflexivity | simpl; lia]. Qed.

(** C4.  [translate_batch] retries once, and only on a 401.  Let the first
    attempt end with [r1] in [st1].  If [r1] is not a 401 error (a result or
    any other error) the call ends there with [r1]: nothing more is sent.
    If [r1] is a 401, the cached token is dropped and the whole attempt is
    run once more: it starts with exactly one authentication request and
    sends at most one translation request, carrying the access token of that
    authentication reply; whatever this second attempt yields, a second
    401 included, is the outcome of the call. *)
Theorem single_retry_on_401
        (env : Env) (self : Self) (texts : list string) (target_lang : string)
        (st st1 : State) (r1 : Res (list json)) :
  texts <> [] ->
  _do_translate_batch env self texts target_lang st = (r1, st1) ->
  (r1 <> Raise (HTTPStatusError 401) ->
   translate_batch env self texts target_lang st = (r1, st1))
  /\ (r1 = Raise (HTTPStatusError 401) ->
      exists r2 st2 rest,
        translate_batch env self texts target_lang st = (r2, st2)
        /\ _do_translate_batch env self texts target_lang (with_token JNull st1) = (r2, st2)
        /\ log st2 = log st1 ++ AuthPost (user_id self) (user_secret self) :: rest
        /\ ((rest = [] /\ is_ok r2 = false)
            \/ exists tok c data,
                 rest = [mt_request self texts target_lang tok]
                 /\ auth_at env (auth_calls (log st1))
                    = Replied {| status_code := c; body := Some data |}
                 /\ response_data data "accessToken" = Ok tok)
        /\ auth_calls (log st2) = S (auth_calls (log st1))
        /\ (mt_calls (log st2) <= S (mt_calls (log st1)))%nat)
  /\ (mt_calls (log st1) <= S (mt_calls (log st)))%nat.
Proof.
  intros Hne H. split; [|split].
  - now apply translate_batch_first_attempt.
  - intros ->.
    rewrite (translate_batch_retry env self texts target_lang Hne _ _ H).
    destruct (_do_translate_batch env self texts target_lang (with_token JNull st1))
      as [r2 st2] eqn:E.
    destruct (do_translate_batch_fresh env self texts target_lang (with_token JNull st1) _ _ eq_refl E)
      as (rest & Hlog & Hrest).
    cbn [with_token log] in Hlog, Hrest.
    exists r2, st2, rest. repeat split; try assumption.
    + rewrite Hlog, auth_calls_app.
      destruct Hrest as [[-> _]|(tok & c & data & -> & _)]; cbn; lia.
    + rewrite Hlog, mt_calls_app.
      destruct Hrest as [[-> _]|(tok & c & data & -> & _)]; cbn; lia.
  - destruct (do_translate_batch_calls env self texts target_lang _ _ _ H)
      as (evs & -> & _ & Hmt).
    rewrite mt_calls_app. lia.
Qed.

Section Reuse.
Variable env : Env.
Variable self : Self.

(** An attempt whose token is there and whose translation reply is not a
    401 ends the call. *)
Lemma translate_batch_with_token (texts : list string) (target_lang : string)
      (st st1 : State) (tok : json) :
  texts <> [] ->
  _get_token env self st = (Ok tok, st1) ->
  unauthorized (mt_at env (mt_calls (log st1))) = false ->
  exists r, translate_batch env self texts target_lang st
            = (r, with_event (mt_request self texts target_lang tok) st1).
Proof.
  intros Hne Htok Hun.
  destruct (do_translate_batch_token env self texts target_lang _ _ _ Htok) as [r Hr].
  exists r. apply translate_batch_first_attempt; [exact Hne | exact Hr |].
  intros ->.
  destruct (do_translate_batch_status env self texts target_lang _ _ _ _ _ Htok Hr)
    as (resp & Hresp & Hs).
  rewrite Hresp in Hun. cbn in Hun. rewrite Hs in Hun. discriminate.
Qed.

End Reuse.

(** C5.  [_get_token] returns the cached token without any request when
    a token is cached and the clock reads less than the stored expiry;
    otherwise it sends one authentication request and, on a 2xx reply with
    [accessToken] and [expiresIn], stores the token with expiry
    [now + expiresIn - 60].  Hence two successive successful calls of
    [translate_batch] on a fresh translator, none of whose requests is
    refused with 401, the second one starting inside the validity window,
    send exactly one authentication request. *)
Theorem token_cache_policy :
  (forall (env : Env) (self : Self) (st : State),
      truthy (_token st) = true ->
      time_at env (clock_reads st) < _token_expiry st ->
      _get_token env self st = (Ok (_token st), with_tick st))
  /\ (forall (env : Env) (self : Self) (st : State),
         truthy (_token st) = false \/ _token_expiry st <= time_at env (clock_reads st) ->
         exists r st',
           _get_token env self st = (r, st')
           /\ log st' = log st ++ [AuthPost (user_id self) (user_secret self)]
           /\ forall (c e : Z) (data tok : json),
               auth_at env (auth_calls (log st))
               = Replied {| status_code := c; body := Some data |} ->
               ((200 <=? c) && (c <=? 299))%bool = true ->
               response_data data "accessToken" = Ok tok ->
               response_data data "expiresIn" = Ok (JNum e) ->
               r = Ok tok /\ _token st' = tok
               /\ _token_expiry st' = time_at env (clock_reads st) + e - 60)
  /\ (forall (env : Env) (self : Self) (texts1 texts2 : list string)
             (lang1 lang2 : string) (out1 out2 : list json) (st1 st2 : State)
             (c e : Z) (data tok : json),
         texts1 <> [] -> texts2 <> [] ->
         auth_at env 0 = Replied {| status_code := c; body := Some data |} ->
         ((200 <=? c) && (c <=? 299))%bool = true ->
         response_data data "accessToken" = Ok tok ->
         truthy tok = true ->
         response_data data "expiresIn" = Ok (JNum e) ->
         unauthorized (mt_at env 0) = false ->
         unauthorized (mt_at env 1) = false ->
         time_at env 1 < time_at env 0 + e - 60 ->
         translate_batch env self texts1 lang1 init = (Ok out1, st1) ->
         translate_batch env self texts2 lang2 st1 = (Ok out2, st2) ->
         auth_calls (log st2) = 1%nat /\ mt_calls (log st2) = 2%nat).
Proof.
  split; [|split].
  - intros env self st Htok Hnow. apply get_token_hit.
    unfold cache_hit. rewrite Htok. now apply Z.ltb_lt.
  - intros env self st Hmiss.
    assert (Hm : cache_hit env st = false).
    { unfold cache_hit. apply andb_false_iff.
      destruct Hmiss as [H|H]; [now left | right; now apply Z.ltb_ge]. }
    destruct (get_token_miss env self st Hm) as (r & tokv & expv & Hrun & _).
    do 2 eexists. split; [exact Hrun|]. split; [reflexivity|].
    intros c e data tok Hreply Hc Hacc Hexp.
    rewrite (get_token_refresh env self st c e data tok Hm Hreply Hc Hacc Hexp) in Hrun.
    injection Hrun as <- <- <-. cbn. auto.
  - intros env self texts1 texts2 lang1 lang2 out1 out2 st1 st2 c e data tok
           Hne1 Hne2 Hreply Hc Hacc Htruthy Hexp Hun0 Hun1 Hwin Hrun1 Hrun2.
    (* first call: one authentication, one translation request *)
    pose proof (get_token_refresh env self init c e data tok eq_refl Hreply Hc Hacc Hexp)
      as Htok1.
    destruct (translate_batch_with_token env self texts1 lang1 _ _ _ Hne1 Htok1 Hun0)
      as [r1 Hr1].
    rewrite Hr1 in Hrun1. injection Hrun1 as -> <-.
    (* second call: the cached token is used *)
    match type of Hrun2 with translate_batch _ _ _ _ ?s = _ => set (s1 := s) in * end.
    assert (Hhit : cache_hit env s1 = true).
    { unfold cache_hit, s1. cbn. rewrite Htruthy. now apply Z.ltb_lt. }
    pose proof (get_token_hit env self s1 Hhit) as Htok2.
    destruct (translate_batch_with_token env self texts2 lang2 _ _ _ Hne2 Htok2 Hun1)
      as [r2 Hr2].
    rewrite Hr2 in Hrun2. injection Hrun2 as -> <-.
    split; reflexivity.
Qed.

(* ===================================================================== *)
(** * [run_translation]: configuration, reference feed, publishing *)
(* ===================================================================== *)

Section HandlerFacts.
Import Handler.
Variable w : World.

Lemma existsb_eqb_In (source_url : string) (dest_urls : list string) :
  existsb (fun d => (source_url =? d)%string) dest_urls = true <-> In source_url dest_urls.
Proof.
  rewrite existsb_exists. split.
  - intros (d & Hd & Heq). apply String.eqb_eq in Heq. now subst.
  - intro H. exists source_url. split; [exact H | apply String.eqb_refl].
Qed.

Lemma puts_app (l1 l2 : list Effect) : puts (l1 ++ l2) = puts l1 ++ puts l2.
Proof. apply filter_app. Qed.

(** [first_json] finds the first URL ending in ".json", if there is one. *)
Lemma first_json_spec (ref_dest_url : string) (dest_urls : list string) :
  (exists before after,
      dest_urls = before ++ first_json ref_dest_url dest_urls :: after
      /\ endswith (first_json ref_dest_url dest_urls) ".json" = true
      /\ Forall (fun d => endswith d ".json" = false) before)
  \/ (Forall (fun d => endswith d ".json" = false) dest_urls
      /\ first_json ref_dest_url dest_urls = ref_dest_url).
Proof.
  induction dest_urls as [|d rest IH]; simpl.
  - right. split; [constructor | reflexivity].
  - destruct (endswith d ".json") eqn:E.
    + left. exists [], rest. repeat split; [exact E | constructor].
    + destruct IH as [(before & after & Heq & Hjson & Hbefore) | [Hnone Href]].
      * left. exists (d :: before), after. repeat split.
        -- simpl. now rewrite <- Heq.
        -- exact Hjson.
        -- now constructor.
      * right. split; [now constructor | exact Href].
Qed.

(** One successful upload adds its [put_object] to the trace. *)
Lemma upload_ok (feed : FeedMessage) (sj : option json) (d : string) (tr : list Effect) :
  upload_succeeds w feed sj d ->
  exists ev, put_for w feed sj d = Ok ev /\ is_put ev = true
             /\ upload w feed sj d tr = (Ok tt, tr ++ [ev]).
Proof.
  intros (body & bucket & key & Hs & Hp & Hput).
  unfold put_for, upload, bind, lift, call. rewrite Hs, Hp, Hput.
  eexists. repeat split.
Qed.

Lemma for_each_upload_ok (feed : FeedMessage) (sj : option json)
      (dest_urls : list string) (tr : list Effect) :
  (forall d, In d dest_urls -> upload_succeeds w feed sj d) ->
  for_each (upload w feed sj) dest_urls tr = (Ok tt, tr ++ published w feed sj dest_urls)
  /\ puts (published w feed sj dest_urls) = published w feed sj dest_urls
  /\ List.length (published w feed sj dest_urls) = List.length dest_urls.
Proof.
  revert tr. induction dest_urls as [|d rest IH]; intros tr H.
  - simpl. unfold ret. rewrite app_nil_r. auto.
  - destruct (upload_ok feed sj d tr (H d (or_introl eq_refl))) as (ev & Hev & Hput & Hrun).
    destruct (IH (tr ++ [ev]) (fun d' Hd' => H d' (or_intror Hd'))) as (Hrest & Hp & Hlen).
    cbn [for_each published flat_map]. fold (published w feed sj rest).
    unfold bind. rewrite Hrun, Hrest, Hev, <- app_assoc.
    repeat split.
    + unfold puts in *. cbn [app filter]. rewrite Hput. now f_equal.
    + cbn [app List.length]. now f_equal.
Qed.

(** The run up to the translator: source fetched, reference feed fetched. *)
Lemma run_translation_prologue (source_url : string) (dest_urls : list string)
      (tr : list Effect) (content : string) (fmt rfmt : FeedFormat)
      (feed : FeedMessage) (sj dj : option json) (ref : string)
      (old : option FeedMessage) :
  dest_urls <> [] ->
  ~ In source_url dest_urls ->
  fetch_source w source_url = Ok (content, fmt) ->
  parse w content fmt = Ok feed ->
  load_source_json w content fmt = Ok sj ->
  reference_destination dest_urls = Ok (ref, rfmt) ->
  fetch_old_feed w ref rfmt = Ok (old, dj) ->
  run_translation w source_url dest_urls tr
  = try_finally
      (bind (call (ProcessedFeed (translator_of w))
                  (process_feed w feed old (translator_of w)
                     (target_lang_list (settings w)) (concurrency_limit (settings w))
                     sj dj))
            (fun x => match x with
                      | (metrics, new_feed') =>
                          if negb (should_upload old new_feed' (Some metrics)) then ret tt
                          else for_each (upload w new_feed' sj) dest_urls
                      end))
      (call ClosedTranslator (translator_close w))
      ((tr ++ [FetchedSource source_url]) ++ [FetchedOldFeed ref rfmt]).
Proof.
  intros Hne Hnot Hfetch Hparse Hsj Href Hold.
  unfold run_translation. destruct dest_urls as [|d0 rest]; [contradiction|].
  destruct (existsb _ (d0 :: rest)) eqn:E.
  - apply existsb_eqb_In in E. contradiction.
  - unfold bind at 1. unfold call at 1. rewrite Hfetch.
    unfold bind at 1. unfold lift at 1. rewrite Hparse.
    unfold bind at 1. unfold lift at 1. rewrite Hsj.
    unfold bind at 1. unfold lift at 1. rewrite Href.
    unfold bind at 1. unfold call at 1. rewrite Hold.
    reflexivity.
Qed.

Lemma appends_ret {X} (x : X) : appends (ret x).
Proof. intros tr r tr' [= _ <-]. exists []. now rewrite app_nil_r. Qed.
Lemma appends_lift {X} (x : Res X) : appends (lift x).
Proof. intros tr r tr' [= _ <-]. exists []. now rewrite app_nil_r. Qed.
Lemma appends_call {X} (ev : Effect) (x : Res X) : appends (call ev x).
Proof. intros tr r tr' [= _ <-]. now exists [ev]. Qed.
Lemma appends_bind {X Y} (c : M (list Effect) X) (f : X -> M (list Effect) Y) :
  appends c -> (forall x, appends (f x)) -> appends (bind c f).
Proof.
  intros Hc Hf tr r tr'. unfold bind.
  destruct (c tr) as [[x|e] tr1] eqn:E; destruct (Hc _ _ _ E) as [evs ->].
  - intro H. destruct (Hf _ _ _ _ H) as [evs' ->].
    exists (evs ++ evs'). now rewrite app_assoc.
  - intros [= _ <-]. now exists evs.
Qed.
Lemma appends_for_each {X} (f : X -> M (list Effect) unit) (l : list X) :
  (forall x, appends (f x)) -> appends (for_each f l).
Proof.
  intro Hf. induction l as [|x l IH]; simpl.
  - apply appends_ret.
  - apply appends_bind; [apply Hf | intros _; exact IH].
Qed.
Lemma appends_try_finally {X} (c : M (list Effect) X) (f : M (list Effect) unit) :
  appends c -> appends f -> appends (try_finally c f).
Proof.
  intros Hc Hf tr r tr'. unfold try_finally.
  destruct (c tr) as [r1 tr1] eqn:E. destruct (Hc _ _ _ E) as [evs ->].
  destruct (f (tr ++ evs)) as [[u|e] tr2] eqn:E2; destruct (Hf _ _ _ E2) as [evs' ->];
    intros [= _ <-]; exists (evs ++ evs'); now rewrite app_assoc.
Qed.
Lemma appends_upload (feed : FeedMessage) (sj : option json) (d : string) :
  appends (upload w feed sj d).
Proof.
  unfold upload. apply appends_bind; [apply appends_lift|]. intro body.
  apply appends_bind; [apply appends_lift|]. intros [bucket key]. apply appends_call.
Qed.

(** The whole run, when every collaborator succeeds: the feed processor
    returns, and then the publish decision alone tells whether the feed is
    uploaded to every destination or to none. *)
Lemma run_translation_outcome (source_url : string) (dest_urls : list string)
      (tr : list Effect) (content : string) (fmt rfmt : FeedFormat)
      (feed feed' : FeedMessage) (sj dj : option json) (ref : string)
      (old : option FeedMessage) (m : ProcessingMetrics) :
  dest_urls <> [] ->
  ~ In source_url dest_urls ->
  fetch_source w source_url = Ok (content, fmt) ->
  parse w content fmt = Ok feed ->
  load_source_json w content fmt = Ok sj ->
  reference_destination dest_urls = Ok (ref, rfmt) ->
  fetch_old_feed w ref rfmt = Ok (old, dj) ->
  process_feed w feed old (translator_of w) (target_lang_list (settings w))
               (concurrency_limit (settings w)) sj dj = Ok (m, feed') ->
  (should_upload old feed' (Some m) = true ->
   forall d, In d dest_urls -> upload_succeeds w feed' sj d) ->
  translator_close w = Ok tt ->
  run_translation w source_url dest_urls tr
  = (Ok tt,
     tr ++ [FetchedSource source_url; FetchedOldFeed ref rfmt;
            ProcessedFeed (translator_of w)]
        ++ (if should_upload old feed' (Some m)
            then published w feed' sj dest_urls else [])
        ++ [ClosedTranslator]).
Proof.
  intros Hne Hnot Hfetch Hparse Hsj Href Hold Hproc Hup Hclose.
  rewrite (run_translation_prologue _ _ tr _ _ _ _ _ _ _ _
             Hne Hnot Hfetch Hparse Hsj Href Hold).
  unfold try_finally, bind, call at 1. rewrite Hproc.
  destruct (should_upload old feed' (Some m)) eqn:E; cbn [negb].
  - destruct (for_each_upload_ok feed' sj dest_urls
                (((tr ++ [FetchedSource source_url]) ++ [FetchedOldFeed ref rfmt])
                   ++ [ProcessedFeed (translator_of w)]) (Hup eq_refl)) as (-> & _).
    unfold call. rewrite Hclose. f_equal.
    rewrite <- !app_assoc. reflexivity.
  - unfold ret, call. rewrite Hclose. f_equal.
    rewrite <- !app_assoc. reflexivity.
Qed.

Lemma puts_published (feed : FeedMessage) (sj : option json) (dest_urls : list string) :
  puts (published w feed sj dest_urls) = published w feed sj dest_urls.
Proof.
  induction dest_urls as [|d rest IH]; [reflexivity|].
  cbn [published flat_map]. fold (published w feed sj rest).
  rewrite puts_app, IH. f_equal.
  unfold put_for. destruct (serialize w feed (format_of d) sj); [|reflexivity].
  destruct (get_s3_parts w d) as [[bucket key]|]; reflexivity.
Qed.

(** Of a run as in [run_translation_outcome], the uploads alone. *)
Lemma puts_of_outcome (tr pre body : list Effect) :
  puts pre = [] -> puts body = body ->
  puts (tr ++ pre ++ body ++ [ClosedTranslator]) = puts tr ++ body.
Proof.
  intros Hpre Hbody. rewrite !puts_app, Hpre, Hbody. cbn. now rewrite app_nil_r.
Qed.

End HandlerFacts.

Import Handler.

(** C9.  When the destination list is empty, or the source URL is one of
    the destinations, [run_translation] raises a [ValueError] and the trace
    of side effects is what it was before the call: nothing was fetched,
    processed or published, and no translator was opened or closed. *)
Theorem configuration_error_before_any_effect
        (w : World) (source_url : string) (dest_urls : list string) (tr : list Effect) :
  dest_urls = [] \/ In source_url dest_urls ->
  exists msg, run_translation w source_url dest_urls tr = (Raise (ValueError msg), tr).
Proof.
  intros [-> | Hin].
  - now eexists.
  - unfold run_translation. destruct dest_urls as [|d0 rest]; [now eexists|].
    apply existsb_eqb_In in Hin. rewrite Hin. now eexists.
Qed.

(** C10.  For a non-empty destination list the reference destination is
    the first URL that ends in ".json" when there is one, and the first URL
    of the list otherwise; its format is "json" exactly when it ends in
    ".json" and "pb" otherwise.  It is the URL and format the run fetches
    the previous feed with, right after the source. *)
Theorem reference_destination_prefers_json (dest_urls : list string) :
  dest_urls <> [] ->
  exists ref fmt,
    reference_destination dest_urls = Ok (ref, fmt)
    /\ (fmt = Fjson <-> endswith ref ".json" = true)
    /\ (fmt = Fpb <-> endswith ref ".json" = false)
    /\ ((exists before after,
            dest_urls = before ++ ref :: after
            /\ endswith ref ".json" = true
            /\ Forall (fun d => endswith d ".json" = false) before)
        \/ (Forall (fun d => endswith d ".json" = false) dest_urls
            /\ hd_error dest_urls = Some ref))
    /\ forall (w : World) (source_url content : string) (source_fmt : FeedFormat)
              (feed : FeedMessage) (sj : option json) (tr : list Effect),
        ~ In source_url dest_urls ->
        fetch_source w source_url = Ok (content, source_fmt) ->
        parse w content source_fmt = Ok feed ->
        load_source_json w content source_fmt = Ok sj ->
        exists rest,
          snd (run_translation w source_url dest_urls tr)
          = tr ++ FetchedSource source_url :: FetchedOldFeed ref fmt :: rest.
Proof.
  intro Hne. destruct dest_urls as [|d0 rest] eqn:Hd; [contradiction|].
  rewrite <- Hd in *.
  exists (first_json d0 dest_urls), (format_of (first_json d0 dest_urls)).
  split; [now rewrite Hd|].
  assert (Hfmt : forall u, (format_of u = Fjson <-> endswith u ".json" = true)
                           /\ (format_of u = Fpb <-> endswith u ".json" = false)).
  { intro u. unfold format_of. destruct (endswith u ".json"); split; split;
      intro; auto; discriminate. }
  split; [apply Hfmt|]. split; [apply Hfmt|]. split.
  - destruct (first_json_spec d0 dest_urls) as [H | [Hnone Href]]; [now left|].
    right. split; [exact Hnone|]. rewrite Href, Hd. reflexivity.
  - intros w source_url content source_fmt feed sj tr Hnot Hfetch Hparse Hsj.
    assert (Href : reference_destination dest_urls
                   = Ok (first_json d0 dest_urls, format_of (first_json d0 dest_urls)))
      by now rewrite Hd.
    destruct (fetch_old_feed w (first_json d0 dest_urls)
                (format_of (first_json d0 dest_urls))) as [[old dj]|e] eqn:Hold.
    + rewrite (run_translation_prologue w _ _ tr _ _ _ _ _ _ _ _
                 Hne Hnot Hfetch Hparse Hsj Href Hold).
      match goal with |- context [snd (?c ?t)] =>
        destruct (c t) as [r tr'] eqn:E; assert (Happ : appends c) end.
      { apply appends_try_finally; [|apply appends_call].
        apply appends_bind; [apply appends_call|]. intros [m f].
        destruct (negb _); [apply appends_ret|].
        apply appends_for_each. intro d. apply appends_upload. }
      destruct (Happ _ _ _ E) as [evs ->]. exists evs. cbn [snd].
      now rewrite <- !app_assoc.
    + exists []. unfold run_translation. rewrite Hd, <- Hd.
      destruct (existsb _ dest_urls) eqn:Eex;
        [apply existsb_eqb_In in Eex; contradiction|].
      unfold bind at 1. unfold call at 1. rewrite Hfetch.
      unfold bind at 1. unfold lift at 1. rewrite Hparse.
      unfold bind at 1. unfold lift at 1. rewrite Hsj.
      unfold bind at 1. unfold lift at 1. rewrite Href.
      unfold bind at 1. unfold call at 1. rewrite Hold.
      cbn [snd]. now rewrite <- !app_assoc.
Qed.

(** C6.  [should_upload] answers yes whenever the header timestamps of the
    old and the new feed differ, whatever the metrics; it answers no when
    they are equal and no string was translated.  In the run: with equal
    timestamps and zero translated strings nothing is published; with
    different timestamps the feed is published once to every destination,
    even with zero translated strings. *)
Theorem publish_decision :
  (forall (old new : FeedMessage) (metrics : option ProcessingMetrics),
      header_timestamp old <> header_timestamp new ->
      should_upload (Some old) new metrics = true)
  /\ (forall (old new : FeedMessage) (m : ProcessingMetrics),
         header_timestamp old = header_timestamp new ->
         strings_translated m = 0 ->
         should_upload (Some old) new (Some m) = false)
  /\ (forall (w : World) (source_url : string) (dest_urls : list string)
             (tr : list Effect) (content : string) (fmt rfmt : FeedFormat)
             (feed feed' old : FeedMessage) (sj dj : option json) (ref : string)
             (m : ProcessingMetrics),
         dest_urls <> [] ->
         ~ In source_url dest_urls ->
         fetch_source w source_url = Ok (content, fmt) ->
         parse w content fmt = Ok feed ->
         load_source_json w content fmt = Ok sj ->
         reference_destination dest_urls = Ok (ref, rfmt) ->
         fetch_old_feed w ref rfmt = Ok (Some old, dj) ->
         process_feed w feed (Some old) (translator_of w) (target_lang_list (settings w))
                      (concurrency_limit (settings w)) sj dj = Ok (m, feed') ->
         translator_close w = Ok tt ->
         (header_timestamp old = header_timestamp feed' ->
          strings_translated m = 0 ->
          exists trace,
            run_translation w source_url dest_urls tr = (Ok tt, trace)
            /\ puts trace = puts tr)
         /\ (header_timestamp old <> header_timestamp feed' ->
             (forall d, In d dest_urls -> upload_succeeds w feed' sj d) ->
             exists trace,
               run_translation w source_url dest_urls tr = (Ok tt, trace)
               /\ puts trace = puts tr ++ published w feed' sj dest_urls
               /\ List.length (published w feed' sj dest_urls) = List.length dest_urls)).
Proof.
  assert (Hdiff : forall old new metrics,
             header_timestamp old <> header_timestamp new ->
             should_upload (Some old) new metrics = true).
  { intros old new metrics H. unfold should_upload.
    destruct (Z.eqb_spec (header_timestamp old) (header_timestamp new)); [contradiction|].
    reflexivity. }
  assert (Hsame : forall old new m,
             header_timestamp old = header_timestamp new ->
             strings_translated m = 0 ->
             should_upload (Some old) new (Some m) = false).
  { intros old new m H H0. unfold should_upload.
    rewrite H, Z.eqb_refl, H0. reflexivity. }
  split; [exact Hdiff|]. split; [exact Hsame|].
  intros w source_url dest_urls tr content fmt rfmt feed feed' old sj dj ref m
         Hne Hnot Hfetch Hparse Hsj Href Hold Hproc Hclose.
  split.
  - intros Hts H0. specialize (Hsame old feed' m Hts H0).
    eexists. split.
    + apply (run_translation_outcome w _ _ tr _ _ _ _ _ _ _ _ _ _
               Hne Hnot Hfetch Hparse Hsj Href Hold Hproc); [|exact Hclose].
      rewrite Hsame. discriminate.
    + rewrite Hsame. rewrite (puts_of_outcome tr _ []); [|reflexivity|reflexivity].
      now rewrite app_nil_r.
  - intros Hts Hup. specialize (Hdiff old feed' (Some m) Hts).
    eexists. split; [|split].
    + apply (run_translation_outcome w _ _ tr _ _ _ _ _ _ _ _ _ _
               Hne Hnot Hfetch Hparse Hsj Href Hold Hproc); [|exact Hclose].
      intros _. exact Hup.
    + rewrite Hdiff. apply puts_of_outcome; [reflexivity | apply puts_published].
    + apply (for_each_upload_ok w feed' sj dest_urls [] Hup).
Qed.

(** C7.  Whatever the target languages, the batch upload has exactly one
    instance of the field [localeIdsToAuthorize[]], and its value is the
    comma-joined list of all of them ("es,fr,pt" for es, fr, pt). *)
Theorem locale_ids_sent_as_one_field
        (batch_uid : string) (texts target_langs : list string) :
  JobBatches.instances JobBatches.locale_field
    (JobBatches._upload_file_to_batch batch_uid texts target_langs)
  = [(JobBatches.locale_field, join "," target_langs)]
  /\ List.length (JobBatches.instances JobBatches.locale_field
                    (JobBatches._upload_file_to_batch batch_uid texts target_langs))
     = 1%nat
  /\ join "," ["es"; "fr"; "pt"] = "es,fr,pt".
Proof. repeat split; reflexivity. Qed.

(* ===================================================================== *)
(** * The theorems at concrete runs *)
(* ===================================================================== *)

(** A 500 from the translation endpoint ends the call after one request of
    each kind. *)
Example server_error_is_not_retried :
  exists st,
    translate_batch Scenario.env_down Scenario.me ["Hello"] "es" init
    = (Raise (HTTPStatusError 500), st)
    /\ auth_calls (log st) = 1%nat /\ mt_calls (log st) = 1%nat.
Proof. eexists. split; [vm_compute; reflexivity | split; reflexivity]. Qed.

(** A stale token: 401, then a fresh token and the translations. *)
Example stale_token_is_refreshed :
  exists st,
    translate_batch Scenario.env_stale Scenario.me ["Hello"] "es" Scenario.stale
    = (Ok [JStr "Retry Success"], st)
    /\ auth_calls (log st) = 1%nat /\ mt_calls (log st) = 2%nat.
Proof. eexists. split; [vm_compute; reflexivity | split; reflexivity]. Qed.

Lemma router_output_in_request_order_witness :
  translate_batch Scenario.env_swapped Scenario.me ["Hello"; "World"] "es" init
  = (Ok [JStr "Hola"; JStr "Mundo"],
     with_event (mt_request Scenario.me ["Hello"; "World"] "es" (JStr "test-token"))
       {| _token := JStr "test-token"; _token_expiry := 4540; clock_reads := 1;
          log := [AuthPost "user" "secret"] |})
  /\ forall i, nth_error (request_items ["Hello"; "World"]) i
               = option_map (fun t => (str i, t)) (nth_error ["Hello"; "World"] i).
Proof.
  apply (router_output_in_request_order
           Scenario.env_swapped Scenario.me ["Hello"; "World"] "es" init
           {| _token := JStr "test-token"; _token_expiry := 4540; clock_reads := 1;
              log := [AuthPost "user" "secret"] |}
           (JStr "test-token")
           (Scenario.mt_data [Scenario.item "1" "Mundo"; Scenario.item "0" "Hola"])
           200
           [Scenario.item "1" "Mundo"; Scenario.item "0" "Hola"]
           [Scenario.item "0" "Hola"; Scenario.item "1" "Mundo"]
           [JStr "Hola"; JStr "Mundo"]).
  - discriminate.
  - reflexivity.
  - reflexivity.
  - reflexivity.
  - reflexivity.
  - apply perm_swap.
  - simpl. repeat split; reflexivity.
Defined.


Lemma single_retry_on_401_witness :
  exists st1,
    _do_translate_batch Scenario.env_stale Scenario.me ["Hello"] "es" Scenario.stale
    = (Raise (HTTPStatusError 401), st1)
    /\ exists r2 st2 rest,
        translate_batch Scenario.env_stale Scenario.me ["Hello"] "es" Scenario.stale
        = (r2, st2)
        /\ log st2 = log st1 ++ AuthPost "user" "secret" :: rest
        /\ auth_calls (log st2) = S (auth_calls (log st1))
        /\ (mt_calls (log st2) <= S (mt_calls (log st1)))%nat.
Proof.
  eexists. split; [vm_compute; reflexivity|].
  destruct (single_retry_on_401 Scenario.env_stale Scenario.me ["Hello"] "es"
              Scenario.stale
              (with_event (mt_request Scenario.me ["Hello"] "es" (JStr "stale"))
                          (with_tick Scenario.stale))
              (Raise (HTTPStatusError 401)))
    as (_ & Hretry & _).
  - discriminate.
  - reflexivity.
  - destruct (Hretry eq_refl) as (r2 & st2 & rest & Hrun & _ & Hlog & _ & Hauth & Hmt).
    exists r2, st2, rest. repeat split; assumption.
Defined.

Lemma token_cache_policy_witness :
  _get_token Scenario.env_hola Scenario.me Scenario.stale
  = (Ok (JStr "stale"), with_tick Scenario.stale)
  /\ (exists r st',
         _get_token Scenario.env_hola Scenario.me init = (r, st')
         /\ log st' = [AuthPost "user" "secret"])
  /\ (translate_batch Scenario.env_hola Scenario.me ["Hello"] "es" init
      = (Ok [JStr "Hola"], Scenario.after_first)
      /\ translate_batch Scenario.env_hola Scenario.me ["Hello"] "es" Scenario.after_first
         = (Ok [JStr "Hola"], Scenario.after_second)
      /\ auth_calls (log Scenario.after_second) = 1%nat
      /\ mt_calls (log Scenario.after_second) = 2%nat).
Proof.
  destruct token_cache_policy as (Hhit & Hmiss & Hreuse).
  split; [|split].
  - apply (Hhit Scenario.env_hola Scenario.me Scenario.stale); [reflexivity|].
    vm_compute. reflexivity.
  - destruct (Hmiss Scenario.env_hola Scenario.me init) as (r & st' & Hrun & Hlog & _).
    + left. reflexivity.
    + exists r, st'. split; assumption.
  - split; [vm_compute; reflexivity|]. split; [vm_compute; reflexivity|].
    apply (Hreuse Scenario.env_hola Scenario.me ["Hello"] ["Hello"] "es" "es"
             [JStr "Hola"] [JStr "Hola"] Scenario.after_first Scenario.after_second 200 3600
             (JObj [("response",
                     JObj [("data", JObj [("accessToken", JStr "test-token");
                                          ("expiresIn", JNum 3600)])])])
             (JStr "test-token"));
      try discriminate; vm_compute; reflexivity.
Defined.

Lemma publish_decision_witness :
  should_upload (Some Scenario.earlier_feed) Scenario.sample_feed
                (Some {| strings_translated := 0 |}) = true
  /\ should_upload (Some Scenario.sample_feed) Scenario.sample_feed
                   (Some {| strings_translated := 0 |}) = false
  /\ (exists trace,
         run_translation
           (Scenario.world_idle (Some Scenario.sample_feed))
           Scenario.source_url Scenario.destinations [] = (Ok tt, trace)
         /\ puts trace = puts [])
  /\ (exists trace,
         run_translation
           (Scenario.world_idle (Some Scenario.earlier_feed))
           Scenario.source_url Scenario.destinations [] = (Ok tt, trace)
         /\ puts trace
            = puts [] ++ published (Scenario.world_idle (Some Scenario.earlier_feed))
                                   Scenario.sample_feed None Scenario.destinations
         /\ List.length (published (Scenario.world_idle (Some Scenario.earlier_feed))
                                   Scenario.sample_feed None Scenario.destinations)
            = List.length Scenario.destinations).
Proof.
  destruct publish_decision as (Hdiff & Hsame & Hrun).
  split; [|split; [|split]].
  - apply Hdiff. discriminate.
  - apply Hsame; reflexivity.
  - apply (Hrun (Scenario.world_idle (Some Scenario.sample_feed))
                Scenario.source_url Scenario.destinations [] "<source bytes>" Fpb Fpb
                Scenario.sample_feed Scenario.sample_feed Scenario.sample_feed
                None None "s3://test-bucket/alerts.pb" {| strings_translated := 0 |});
      try reflexivity; try discriminate.
    intros [H|[]]. discriminate H.
  - apply (Hrun (Scenario.world_idle (Some Scenario.earlier_feed))
                Scenario.source_url Scenario.destinations [] "<source bytes>" Fpb Fpb
                Scenario.sample_feed Scenario.sample_feed Scenario.earlier_feed
                None None "s3://test-bucket/alerts.pb" {| strings_translated := 0 |});
      try reflexivity; try discriminate.
    + intros [H|[]]. discriminate H.
    + intros d Hd. exists "<feed bytes>", "test-bucket", "alerts.pb".
      repeat split.
Defined.

Lemma configuration_error_before_any_effect_witness :
  (exists msg, run_translation (Scenario.world None) Scenario.source_url [] []
               = (Raise (ValueError msg), []))
  /\ (exists msg, run_translation (Scenario.world None) "s3://test-bucket/alerts.pb"
                                  Scenario.destinations []
                  = (Raise (ValueError msg), [])).
Proof.
  split.
  - apply (configuration_error_before_any_effect (Scenario.world None)
             Scenario.source_url [] []). left. reflexivity.
  - apply (configuration_error_before_any_effect (Scenario.world None)
             "s3://test-bucket/alerts.pb" Scenario.destinations []).
    right. left. reflexivity.
Defined.

Lemma reference_destination_prefers_json_witness :
  exists ref fmt,
    reference_destination ["s3://b/alerts.pb"; "s3://b/alerts.json"; "s3://b/full.json"]
    = Ok (ref, fmt)
    /\ (fmt = Fjson <-> endswith ref ".json" = true).
Proof.
  destruct (reference_destination_prefers_json
              ["s3://b/alerts.pb"; "s3://b/alerts.json"; "s3://b/full.json"])
    as (ref & fmt & Href & Hfmt & _).
  - discriminate.
  - exists ref, fmt. split; assumption.
Defined.

(* ===================================================================== *)
(** * More on [SmartlingTranslator]: requests, replies, failures *)
(* ===================================================================== *)

Import Vocabulary.

Lemma str_injective (i j : nat) : str i = str j -> i = j.
Proof.
  intro H. apply Nat2Z.inj.
  pose proof (int_of_string_str i) as Hi. rewrite H, int_of_string_str in Hi.
  now injection Hi.
Qed.

Lemma enumerate_from_fst {A} (k : nat) (l : list A) :
  map fst (enumerate_from k l) = seq k (List.length l).
Proof. revert k. induction l as [|x l IH]; intro k; simpl; [reflexivity | now rewrite IH]. Qed.

Lemma enumerate_from_snd {A} (k : nat) (l : list A) :
  map snd (enumerate_from k l) = l.
Proof. revert k. induction l as [|x l IH]; intro k; simpl; [reflexivity | now rewrite IH]. Qed.

(** X1.  The request items carry the texts in order, under the keys
    [str(0)], [str(1)], ...; these keys are pairwise distinct. *)
Theorem request_items_keys_distinct (texts : list string) :
  map snd (request_items texts) = texts
  /\ map fst (request_items texts) = map str (seq 0 (List.length texts))
  /\ NoDup (map fst (request_items texts)).
Proof.
  assert (Hk : map fst (request_items texts) = map str (seq 0 (List.length texts))).
  { unfold request_items. rewrite map_map. cbn [fst].
    rewrite <- (enumerate_from_fst 0 texts), map_map. reflexivity. }
  split; [|split; [exact Hk|]].
  - unfold request_items. rewrite map_map. cbn [snd]. apply enumerate_from_snd.
  - rewrite Hk. apply Finite.Injective_map_NoDup; [|apply seq_NoDup].
    intros i j. apply str_injective.
Qed.

(** X2.  The key written for the i-th text is read back as i by
    [int(x["key"])], and the item carries [texts[i]]. *)
Theorem request_key_read_back (texts : list string) (i : nat) (k t : string) :
  nth_error (request_items texts) i = Some (k, t) ->
  int (JStr k) = Ok (Z.of_nat i) /\ nth_error texts i = Some t.
Proof.
  rewrite nth_error_request_items.
  destruct (nth_error texts i) as [t'|]; [|discriminate].
  intros [= <- <-]. split; [apply int_str | reflexivity].
Qed.

Lemma sort_sorted_id {A} (l : list (Z * A)) : StronglySorted key_le l -> sort l = l.
Proof.
  induction 1 as [|x l Hs IH Hx]; simpl; [reflexivity|].
  rewrite IH. destruct l as [|y l']; [reflexivity|]. simpl.
  inversion Hx as [|? ? Hxy _]; subst. unfold key_le in Hxy.
  destruct (Z.leb_spec (fst x) (fst y)); [reflexivity | lia].
Qed.

Lemma mapM_ok_inv {S A B} (f : A -> M S B) (l : list A) (st st' : S) (out : list B) :
  mapM f l st = (Ok out, st') ->
  Forall2 (fun x y => exists s s', f x s = (Ok y, s')) l out.
Proof.
  revert st st' out. induction l as [|x l IH]; intros st st' out; simpl.
  - unfold ret. intros [= <- _]. constructor.
  - unfold bind, ret. destruct (f x st) as [[y|e] st1] eqn:E; [|discriminate].
    destruct (mapM f l st1) as [[ys|e] st2] eqn:E2; [|discriminate].
    intros [= <- _]. constructor; [now exists st, st1 | eapply IH, E2].
Qed.

Lemma sort_key_ok (x : json) (z : Z) (s s' : State) :
  sort_key x s = (Ok z, s') ->
  z = key_of x /\ exists k, getitem x "key" = Ok k /\ int k = Ok z.
Proof.
  unfold sort_key, bind, lift, key_of.
  destruct (getitem x "key") as [k|]; [|discriminate].
  destruct (int k) as [z'|] eqn:E; [|discriminate].
  intros [= <- _]. split; [reflexivity | now exists k].
Qed.

Lemma keyed_items_ok (elems : list json) (l : list (Z * json)) (st st' : State) :
  mapM (fun x => bind (sort_key x) (fun k => ret (k, x))) elems st = (Ok l, st') ->
  l = map keyed elems
  /\ Forall (fun x => exists k z, getitem x "key" = Ok k /\ int k = Ok z) elems.
Proof.
  intro H. apply mapM_ok_inv in H.
  induction H as [|x p elems l (s & s' & Hx) _ [IH1 IH2]]; [split; constructor|].
  unfold bind, ret in Hx.
  destruct (sort_key x s) as [[z|e] s1] eqn:E; [|discriminate].
  injection Hx as <- _. apply sort_key_ok in E as (-> & k & Hk & Hz).
  split; [simpl; now rewrite IH1 | constructor; [now exists k, (key_of x) | exact IH2]].
Qed.

Lemma sorted_by_key_ok (elems sorted_items : list json) (st st' : State) :
  sorted_by_key elems st = (Ok sorted_items, st') ->
  Permutation sorted_items elems
  /\ StronglySorted by_key sorted_items
  /\ Forall (fun x => exists k z, getitem x "key" = Ok k /\ int k = Ok z) elems
  /\ sorted_items = map snd (sort (map keyed elems)).
Proof.
  unfold sorted_by_key. unfold bind at 1.
  destruct (mapM _ elems st) as [[l|e] st1] eqn:E; [|discriminate].
  unfold ret. intros [= <- _].
  apply keyed_items_ok in E as [-> Hkeys].
  split; [|split; [|split; [exact Hkeys | reflexivity]]].
  - assert (Hid : map snd (map keyed elems) = elems)
      by (rewrite map_map; apply map_id).
    rewrite <- Hid at 2. apply Permutation_map, sort_perm.
  - assert (Hfst : Forall (fun p => fst p = key_of (snd p)) (sort (map keyed elems))).
    { eapply Permutation_Forall; [apply Permutation_sym, sort_perm|].
      apply Forall_forall. intros p Hp. apply in_map_iff in Hp as (x & <- & _).
      reflexivity. }
    pose proof (sort_sorted (map keyed elems)) as Hs.
    induction Hs as [|p l Hs IH Hp]; [constructor|].
    inversion Hfst as [|? ? Hp1 Hl]; subst. simpl. constructor; [now apply IH|].
    apply Forall_forall. intros y Hy. apply in_map_iff in Hy as (q & <- & Hq).
    rewrite Forall_forall in Hp, Hl. specialize (Hp q Hq). specialize (Hl q Hq).
    unfold by_key, key_le in *. lia.
Qed.

Section ReplyFacts.
Variable env : Env.
Variable self : Self.
Variable texts : list string.
Variable target_lang : string.
Hypothesis nonempty : texts <> [].

(** With a token and a 2xx reply carrying [items], the call is its first
    attempt, and that is the sort followed by the comprehension. *)
Lemma translate_batch_on_reply (st st1 : State) (tok data : json) (c : Z)
      (elems : list json) :
  _get_token env self st = (Ok tok, st1) ->
  mt_at env (mt_calls (log st1)) = Replied {| status_code := c; body := Some data |} ->
  ((200 <=? c) && (c <=? 299))%bool = true ->
  response_data data "items" = Ok (JArr elems) ->
  translate_batch env self texts target_lang st
  = bind (sorted_by_key elems)
         (mapM (fun item => lift (getitem item "translationText")))
         (with_event (mt_request self texts target_lang tok) st1).
Proof.
  intros Htok Hreply Hc Hitems.
  rewrite <- (do_translate_batch_reply env self texts target_lang _ _ _ _ _ _ _
                Htok Hreply Hc Hitems eq_refl).
  destruct (_do_translate_batch env self texts target_lang st) as [r1 s1] eqn:E.
  apply translate_batch_first_attempt; [exact nonempty | exact E |].
  intros ->.
  destruct (do_translate_batch_status env self texts target_lang _ _ _ _ _ Htok E)
    as (resp & Hresp & Hs).
  rewrite Hreply in Hresp. injection Hresp as <-. cbn [status_code] in Hs. subst c.
  discriminate.
Qed.

Lemma reply_outcome (elems : list json) (st : State) :
  exists r, bind (sorted_by_key elems)
                 (mapM (fun item => lift (getitem item "translationText"))) st = (r, st).
Proof.
  apply stateless_bind; [apply stateless_sorted_by_key|].
  intro l. apply stateless_mapM. intro x. apply stateless_lift.
Qed.

Lemma reply_ok (elems out : list json) (st st' : State) :
  bind (sorted_by_key elems)
       (mapM (fun item => lift (getitem item "translationText"))) st = (Ok out, st') ->
  exists sorted_items,
    sorted_items = map snd (sort (map keyed elems))
    /\ Permutation sorted_items elems
    /\ StronglySorted by_key sorted_items
    /\ Forall (fun x => exists k z, getitem x "key" = Ok k /\ int k = Ok z) elems
    /\ Forall2 (fun x t => getitem x "translationText" = Ok t) sorted_items out.
Proof.
  unfold bind at 1.
  destruct (sorted_by_key elems st) as [[sorted_items|e] s1] eqn:E; [|discriminate].
  intro H. exists sorted_items.
  destruct (sorted_by_key_ok _ _ _ _ E) as (HP & Hs & Hk & Heq).
  repeat split; try assumption.
  apply mapM_ok_inv in H.
  eapply Forall2_impl; [|exact H].
  intros x t (s & s' & Hx). unfold lift in Hx. now injection Hx.
Qed.

End ReplyFacts.

(** X3.  The result of a call that returns normally is made of the
    [translationText] of every reply item, each taken once, listed in
    ascending order of the integer keys: nothing is dropped or added. *)
Theorem output_is_reply_sorted_by_key
        (env : Env) (self : Self) (texts : list string) (target_lang : string)
        (st st1 st2 : State) (tok data : json) (c : Z) (elems out : list json) :
  texts <> [] ->
  _get_token env self st = (Ok tok, st1) ->
  mt_at env (mt_calls (log st1)) = Replied {| status_code := c; body := Some data |} ->
  ((200 <=? c) && (c <=? 299))%bool = true ->
  response_data data "items" = Ok (JArr elems) ->
  translate_batch env self texts target_lang st = (Ok out, st2) ->
  exists sorted_items,
    Permutation sorted_items elems
    /\ StronglySorted by_key sorted_items
    /\ Forall2 (fun x t => getitem x "translationText" = Ok t) sorted_items out.
Proof.
  intros Hne Htok Hreply Hc Hitems Hrun.
  rewrite (translate_batch_on_reply env self texts target_lang Hne _ _ _ _ _ _
             Htok Hreply Hc Hitems) in Hrun.
  destruct (reply_ok _ _ _ _ Hrun) as (s & _ & HP & Hs & _ & Ht).
  now exists s.
Qed.

(** X4.  A reply whose keys are already ascending, equal keys allowed, is
    returned in the order of the reply: the sort is stable. *)
Theorem ascending_reply_keeps_its_order
        (env : Env) (self : Self) (texts : list string) (target_lang : string)
        (st st1 st2 : State) (tok data : json) (c : Z) (elems out : list json) :
  texts <> [] ->
  _get_token env self st = (Ok tok, st1) ->
  mt_at env (mt_calls (log st1)) = Replied {| status_code := c; body := Some data |} ->
  ((200 <=? c) && (c <=? 299))%bool = true ->
  response_data data "items" = Ok (JArr elems) ->
  StronglySorted by_key elems ->
  translate_batch env self texts target_lang st = (Ok out, st2) ->
  Forall2 (fun x t => getitem x "translationText" = Ok t) elems out.
Proof.
  intros Hne Htok Hreply Hc Hitems Hasc Hrun.
  rewrite (translate_batch_on_reply env self texts target_lang Hne _ _ _ _ _ _
             Htok Hreply Hc Hitems) in Hrun.
  destruct (reply_ok _ _ _ _ Hrun) as (s & Heq & _ & _ & _ & Ht).
  assert (Hid : s = elems).
  { rewrite Heq, sort_sorted_id; [rewrite map_map; apply map_id|].
    clear -Hasc. induction Hasc as [|x l Hs IH Hx]; simpl; constructor; [exact IH|].
    apply Forall_forall. intros p Hp. apply in_map_iff in Hp as (y & <- & Hy).
    rewrite Forall_forall in Hx. exact (Hx y Hy). }
  now rewrite <- Hid.
Qed.

(** X5.  If one item of a 2xx reply is [malformed] (it has no [key], or a
    key that is no integer, or no [translationText]), the call raises an
    error that is not an HTTP status error, after its single translation
    request: nothing is retried and no partial result is returned. *)
Theorem malformed_item_fails_the_call
        (env : Env) (self : Self) (texts : list string) (target_lang : string)
        (st st1 : State) (tok data : json) (c : Z) (elems : list json) (x : json) :
  texts <> [] ->
  _get_token env self st = (Ok tok, st1) ->
  mt_at env (mt_calls (log st1)) = Replied {| status_code := c; body := Some data |} ->
  ((200 <=? c) && (c <=? 299))%bool = true ->
  response_data data "items" = Ok (JArr elems) ->
  In x elems ->
  malformed x ->
  exists e,
    translate_batch env self texts target_lang st
    = (Raise e, with_event (mt_request self texts target_lang tok) st1)
    /\ forall s, e <> HTTPStatusError s.
Proof.
  intros Hne Htok Hreply Hc Hitems Hin Hmal.
  assert (Hbad : ~ ((exists k z, getitem x "key" = Ok k /\ int k = Ok z)
                    /\ exists t, getitem x "translationText" = Ok t)).
  { intros [(k & z & Hk & Hz) (t & Ht)].
    destruct Hmal as [(e & He)|[(k' & e & Hk' & He & _)|(e & He)]].
    - rewrite Hk in He. discriminate.
    - rewrite Hk in Hk'. injection Hk' as <-. rewrite Hz in He. discriminate.
    - rewrite Ht in He. discriminate. }
  rewrite (translate_batch_on_reply env self texts target_lang Hne _ _ _ _ _ _
             Htok Hreply Hc Hitems).
  destruct (reply_outcome elems (with_event (mt_request self texts target_lang tok) st1))
    as [r Hr].
  rewrite Hr. destruct r as [out|e].
  - exfalso. apply Hbad.
    destruct (reply_ok _ _ _ _ Hr) as (s & _ & HP & _ & Hk & Ht).
    rewrite Forall_forall in Hk. split; [exact (Hk x Hin)|].
    assert (Hxs : In x s) by (eapply Permutation_in; [apply Permutation_sym, HP | exact Hin]).
    clear -Ht Hxs. induction Ht as [|y t s out Hy _ IH]; [contradiction|].
    destruct Hxs as [<-|Hxs]; [now exists t | now apply IH].
  - exists e. split; [reflexivity|].
    assert (Hn : no_status_error
                   (bind (sorted_by_key elems)
                         (mapM (fun item => lift (getitem item "translationText"))))).
    { apply nse_bind; [apply nse_sorted_by_key|]. intro l.
      apply nse_mapM. intro y. apply nse_getitem. }
    exact (Hn _ _ _ Hr).
Qed.

Section AttemptFacts.
Variable env : Env.
Variable self : Self.
Variable texts : list string.
Variable target_lang : string.

(** A refused or unanswered authentication request. *)
Lemma get_token_refused (st : State) :
  cache_hit env st = false ->
  match auth_at env (auth_calls (log st)) with
  | NoReply =>
      _get_token env self st
      = (Raise RequestError,
         with_event (AuthPost (user_id self) (user_secret self)) (with_tick st))
  | Replied resp =>
      ((200 <=? status_code resp) && (status_code resp <=? 299))%bool = false ->
      _get_token env self st
      = (Raise (HTTPStatusError (status_code resp)),
         with_event (AuthPost (user_id self) (user_secret self)) (with_tick st))
  end.
Proof.
  intro Hmiss. unfold cache_hit in Hmiss.
  destruct (auth_at env (auth_calls (log st))) as [resp|] eqn:Hreply.
  - intro Hc.
    unfold _get_token, bind, time_time, get_token_attr, get_expiry_attr.
    cbn [with_tick _token _token_expiry clock_reads log]. rewrite Hmiss.
    unfold post. cbn [log with_tick]. rewrite Hreply.
    unfold raise_for_status. rewrite Hc. reflexivity.
  - unfold _get_token, bind, time_time, get_token_attr, get_expiry_attr.
    cbn [with_tick _token _token_expiry clock_reads log]. rewrite Hmiss.
    unfold post. cbn [log with_tick]. rewrite Hreply. reflexivity.
Qed.

(** A refused or unanswered translation request. *)
Lemma do_translate_batch_refused (st st1 : State) (tok : json) :
  _get_token env self st = (Ok tok, st1) ->
  match mt_at env (mt_calls (log st1)) with
  | NoReply =>
      _do_translate_batch env self texts target_lang st
      = (Raise RequestError, with_event (mt_request self texts target_lang tok) st1)
  | Replied resp =>
      ((200 <=? status_code resp) && (status_code resp <=? 299))%bool = false ->
      _do_translate_batch env self texts target_lang st
      = (Raise (HTTPStatusError (status_code resp)),
         with_event (mt_request self texts target_lang tok) st1)
  end.
Proof.
  intro Htok.
  destruct (mt_at env (mt_calls (log st1))) as [resp|] eqn:Hreply.
  - intro Hc. unfold _do_translate_batch. unfold bind at 1. rewrite Htok.
    unfold bind at 1. unfold post. rewrite Hreply.
    unfold bind at 1. unfold raise_for_status. rewrite Hc. reflexivity.
  - unfold _do_translate_batch. unfold bind at 1. rewrite Htok.
    unfold bind at 1. unfold post. rewrite Hreply. reflexivity.
Qed.

(** The requests of one attempt: an authentication request or none, then a
    translation request or none. *)
Lemma do_translate_batch_events (st st' : State) (r : Res (list json)) :
  _do_translate_batch env self texts target_lang st = (r, st') ->
  exists a m,
    log st' = log st ++ a ++ m
    /\ (a = [] \/ a = [AuthPost (user_id self) (user_secret self)])
    /\ (m = [] \/ exists tok, m = [mt_request self texts target_lang tok])
    /\ (clock_reads st' = S (clock_reads st)).
Proof.
  intro H.
  destruct (cache_hit env st) eqn:Hhit.
  - pose proof (get_token_hit env self st Hhit) as Htok.
    destruct (do_translate_batch_token env self texts target_lang _ _ _ Htok) as [r' Hr'].
    rewrite Hr' in H. injection H as _ <-.
    exists [], [mt_request self texts target_lang (_token st)].
    repeat split; [now left | right; now eexists].
  - destruct (get_token_miss env self st Hhit) as (rt & tokv & expv & Htok & _).
    destruct rt as [tok|e].
    + destruct (do_translate_batch_token env self texts target_lang _ _ _ Htok) as [r' Hr'].
      rewrite Hr' in H. injection H as _ <-.
      exists [AuthPost (user_id self) (user_secret self)],
             [mt_request self texts target_lang tok].
      cbn [with_event log clock_reads]. rewrite <- app_assoc.
      repeat split; [now right | right; now eexists].
    + rewrite (do_translate_batch_no_token env self texts target_lang _ _ _ Htok) in H.
      injection H as _ <-. cbn [log clock_reads].
      exists [AuthPost (user_id self) (user_secret self)], [].
      rewrite app_nil_r. repeat split; [now right | now left].
Qed.

End AttemptFacts.

(** X6.  Whatever the replies, one call of [translate_batch] only adds to
    the request log, sends at most two authentication requests and at most
    two translation requests, reads the clock at most twice, and every
    translation request it sends carries the same target language and the
    same items. *)
Theorem at_most_two_requests_of_each_kind
        (env : Env) (self : Self) (texts : list string) (target_lang : string)
        (st st' : State) (r : Res (list json)) :
  translate_batch env self texts target_lang st = (r, st') ->
  exists evs,
    log st' = log st ++ evs
    /\ (auth_calls evs <= 2)%nat
    /\ (mt_calls evs <= 2)%nat
    /\ Forall (fun ev => ev = AuthPost (user_id self) (user_secret self)
                         \/ exists tok, ev = mt_request self texts target_lang tok) evs
    /\ (clock_reads st' <= clock_reads st + 2)%nat.
Proof.
  intro H.
  destruct texts as [|t ts] eqn:Ht.
  - injection H as _ <-. exists []. rewrite app_nil_r.
    repeat split; try (cbn; lia). constructor.
  - rewrite <- Ht in *. assert (Hne : texts <> []) by (rewrite Ht; discriminate).
    assert (Hshape : forall a m,
               (a = [] \/ a = [AuthPost (user_id self) (user_secret self)]) ->
               (m = [] \/ exists tok, m = [mt_request self texts target_lang tok]) ->
               (auth_calls (a ++ m) <= 1)%nat /\ (mt_calls (a ++ m) <= 1)%nat
               /\ Forall (fun ev => ev = AuthPost (user_id self) (user_secret self)
                                    \/ exists tok, ev = mt_request self texts target_lang tok)
                         (a ++ m)).
    { intros a m [-> | ->] [-> | [tok ->]]; cbn [app];
        (split; [cbn; lia | split; [cbn; lia |]]);
        repeat (apply Forall_cons; [first [now left | right; now eexists] |]);
        apply Forall_nil. }
    destruct (_do_translate_batch env self texts target_lang st) as [r1 s1] eqn:E1.
    destruct (do_translate_batch_events env self texts target_lang _ _ _ E1)
      as (a1 & m1 & Hlog1 & Ha1 & Hm1 & Hc1).
    destruct (Hshape a1 m1 Ha1 Hm1) as (Hau1 & Hmt1 & Hf1).
    assert (Hdec : r1 = Raise (HTTPStatusError 401) \/ r1 <> Raise (HTTPStatusError 401)).
    { destruct r1 as [|e]; [right; discriminate|].
      destruct e; try (right; discriminate).
      destruct (Z.eq_dec status 401) as [->|]; [now left | right; congruence]. }
    destruct Hdec as [-> | Hr1].
    + rewrite (translate_batch_retry env self texts target_lang Hne _ _ E1) in H.
      destruct (do_translate_batch_events env self texts target_lang _ _ _ H)
        as (a2 & m2 & Hlog2 & Ha2 & Hm2 & Hc2).
      destruct (Hshape a2 m2 Ha2 Hm2) as (Hau2 & Hmt2 & Hf2).
      cbn [with_token log clock_reads] in Hlog2, Hc2.
      exists ((a1 ++ m1) ++ (a2 ++ m2)).
      split; [rewrite Hlog2, Hlog1; now rewrite <- !app_assoc|].
      split; [rewrite auth_calls_app; lia|].
      split; [rewrite mt_calls_app; lia|].
      split; [apply Forall_app; split; assumption | lia].
    + rewrite (translate_batch_first_attempt env self texts target_lang Hne _ _ _ E1 Hr1) in H.
      injection H as _ <-.
      exists (a1 ++ m1).
      split; [exact Hlog1|]. split; [lia|]. split; [lia|]. split; [exact Hf1 | lia].
Qed.

Lemma unauthorized_inv (r : Reply) :
  unauthorized r = true -> exists resp, r = Replied resp /\ status_code resp = 401.
Proof.
  destruct r as [resp|]; [|discriminate]. cbn. intro H.
  exists resp. split; [reflexivity | now apply Z.eqb_eq].
Qed.

(** X7.  When the token must be fetched and the authentication endpoint
    answers 401 twice, the call raises the 401 after exactly two
    authentication requests and no translation request; the token is left
    cleared and the stored expiry is unchanged. *)
Theorem rejected_credentials_cost_two_authentications
        (env : Env) (self : Self) (texts : list string) (target_lang : string)
        (st : State) :
  texts <> [] ->
  cache_hit env st = false ->
  unauthorized (auth_at env (auth_calls (log st))) = true ->
  unauthorized (auth_at env (S (auth_calls (log st)))) = true ->
  exists st',
    translate_batch env self texts target_lang st = (Raise (HTTPStatusError 401), st')
    /\ log st' = log st ++ [AuthPost (user_id self) (user_secret self);
                            AuthPost (user_id self) (user_secret self)]
    /\ _token st' = JNull
    /\ _token_expiry st' = _token_expiry st.
Proof.
  intros Hne Hmiss H1 H2.
  apply unauthorized_inv in H1 as (resp1 & Hr1 & Hs1).
  apply unauthorized_inv in H2 as (resp2 & Hr2 & Hs2).
  pose proof (get_token_refused env self st Hmiss) as Ht1.
  rewrite Hr1, Hs1 in Ht1. specialize (Ht1 eq_refl).
  pose proof (do_translate_batch_no_token env self texts target_lang _ _ _ Ht1) as Hd1.
  rewrite (translate_batch_retry env self texts target_lang Hne _ _ Hd1).
  set (s1 := with_token JNull
               (with_event (AuthPost (user_id self) (user_secret self)) (with_tick st))).
  pose proof (get_token_refused env self s1 eq_refl) as Ht2.
  assert (Hidx : auth_calls (log s1) = S (auth_calls (log st))).
  { unfold s1. cbn [with_token with_event with_tick log].
    rewrite auth_calls_app. cbn. lia. }
  rewrite Hidx, Hr2, Hs2 in Ht2. specialize (Ht2 eq_refl).
  rewrite (do_translate_batch_no_token env self texts target_lang _ _ _ Ht2).
  eexists. split; [reflexivity|].
  unfold s1. cbn [with_token with_event with_tick log _token _token_expiry].
  rewrite <- app_assoc. repeat split.
Qed.

(** X8.  A translation request that gets no reply raises the transport
    error, and one answered with a status outside 2xx other than 401 raises
    the status error; in both cases the call ends after that one request
    and leaves the token cache as the token fetch left it. *)
Theorem translation_failure_is_not_retried
        (env : Env) (self : Self) (texts : list string) (target_lang : string)
        (st st1 : State) (tok : json) :
  texts <> [] ->
  _get_token env self st = (Ok tok, st1) ->
  match mt_at env (mt_calls (log st1)) with
  | NoReply =>
      translate_batch env self texts target_lang st
      = (Raise RequestError, with_event (mt_request self texts target_lang tok) st1)
  | Replied resp =>
      ((200 <=? status_code resp) && (status_code resp <=? 299))%bool = false ->
      status_code resp <> 401 ->
      translate_batch env self texts target_lang st
      = (Raise (HTTPStatusError (status_code resp)),
         with_event (mt_request self texts target_lang tok) st1)
  end.
Proof.
  intros Hne Htok.
  pose proof (do_translate_batch_refused env self texts target_lang _ _ _ Htok) as H.
  destruct (mt_at env (mt_calls (log st1))) as [resp|].
  - intros Hc Hs. apply translate_batch_first_attempt; [exact Hne | now apply H |].
    congruence.
  - apply translate_batch_first_attempt; [exact Hne | exact H | discriminate].
Qed.

(** X9.  A failing [_get_token] has sent one authentication request and
    leaves the stored expiry unchanged; the cached token is unchanged too,
    unless the reply held an [accessToken], which is then stored under the
    previous expiry. *)
Theorem failed_authentication_keeps_the_expiry
        (env : Env) (self : Self) (st st' : State) (e : exn) :
  _get_token env self st = (Raise e, st') ->
  _token_expiry st' = _token_expiry st
  /\ log st' = log st ++ [AuthPost (user_id self) (user_secret self)]
  /\ (_token st' = _token st
      \/ exists c data,
           auth_at env (auth_calls (log st))
           = Replied {| status_code := c; body := Some data |}
           /\ response_data data "accessToken" = Ok (_token st')).
Proof.
  destruct (cache_hit env st) eqn:Hhit.
  { rewrite (get_token_hit env self st Hhit). discriminate. }
  unfold cache_hit in Hhit.
  unfold _get_token, bind, time_time, get_token_attr, get_expiry_attr.
  cbn [with_tick _token _token_expiry clock_reads log]. rewrite Hhit.
  unfold post. cbn [log with_tick].
  destruct (auth_at env (auth_calls (log st))) as [[c b]|] eqn:Hreply;
    [|intros [= _ <-]; cbn; auto].
  unfold raise_for_status. cbn [status_code body].
  destruct ((200 <=? c) && (c <=? 299))%bool;
    [|unfold raise; intros [= _ <-]; cbn; auto].
  unfold ret at 1. cbv beta iota. unfold resp_json. cbn [body].
  destruct b as [data|]; [|unfold raise; intros [= _ <-]; cbn; auto].
  unfold ret at 1. cbv beta iota. unfold lift.
  destruct (getitem data "response") as [r|] eqn:Hr; [|intros [= _ <-]; cbn; auto].
  destruct (getitem r "data") as [d|] eqn:Hd; [|intros [= _ <-]; cbn; auto].
  destruct (getitem d "accessToken") as [tok|] eqn:Ha; [|intros [= _ <-]; cbn; auto].
  assert (Hacc : response_data data "accessToken" = Ok tok)
    by (unfold response_data; now rewrite Hr, Hd).
  unfold set_token_attr. cbv beta iota.
  destruct (getitem d "expiresIn") as [x|] eqn:He.
  - unfold add_seconds.
    destruct x; unfold ret, raise, set_expiry_attr; cbv beta iota;
      try discriminate; intros [= _ <-]; cbn;
      (split; [reflexivity | split; [reflexivity | right; now exists c, data]]).
  - intros [= _ <-]. cbn.
    split; [reflexivity | split; [reflexivity | right; now exists c, data]].
Qed.


(* ===================================================================== *)
(** * More on [should_upload] and [run_translation] *)
(* ===================================================================== *)

(** X11.  [should_upload] says no in exactly one situation: there is an
    old feed with the same header timestamp, metrics are given, and the
    count of translated strings is not positive.  With no old feed or no
    metrics it always says yes. *)
Theorem should_upload_iff
        (old_feed : option FeedMessage) (new_feed : FeedMessage)
        (metrics : option ProcessingMetrics) :
  should_upload old_feed new_feed metrics = false
  <-> exists old m,
        old_feed = Some old /\ metrics = Some m
        /\ header_timestamp old = header_timestamp new_feed
        /\ strings_translated m <= 0.
Proof.
  unfold should_upload. split.
  - destruct old_feed as [old|]; [|discriminate].
    destruct (Z.eqb_spec (header_timestamp old) (header_timestamp new_feed)) as [Hts|];
      [|discriminate].
    destruct metrics as [m|]; [|discriminate]. cbn [negb].
    intro H. apply Z.ltb_ge in H. now exists old, m.
  - intros (old & m & -> & -> & Hts & Hm).
    rewrite Hts, Z.eqb_refl. cbn [negb]. now apply Z.ltb_ge.
Qed.

Section RunFacts.
Variable w : World.

Lemma for_each_upload_prefix (feed : FeedMessage) (sj : option json)
      (dest_urls : list string) (tr tr' : list Effect) (r : Res unit) :
  for_each (upload w feed sj) dest_urls tr = (r, tr') ->
  exists ps, tr' = tr ++ ps /\ uploads_of w feed sj dest_urls ps.
Proof.
  revert tr. induction dest_urls as [|d rest IH]; intros tr; simpl.
  - intros [= _ <-]. exists []. rewrite app_nil_r. split; [reflexivity|].
    exists 0%nat. constructor.
  - unfold bind at 1. unfold upload at 1. unfold bind, lift, call.
    destruct (serialize w feed (format_of d) sj) as [body|e] eqn:Hs.
    2:{ intros [= _ <-]. exists []. rewrite app_nil_r. split; [reflexivity|].
        exists 0%nat. constructor. }
    destruct (get_s3_parts w d) as [[bucket key]|e] eqn:Hp.
    2:{ intros [= _ <-]. exists []. rewrite app_nil_r. split; [reflexivity|].
        exists 0%nat. constructor. }
    destruct (put_object w bucket key body (content_type_of (format_of d))) as [[]|e].
    + intro H. destruct (IH _ H) as (ps & -> & k & Hk).
      exists (PutObject bucket key body (content_type_of (format_of d)) :: ps).
      rewrite <- app_assoc. split; [reflexivity|].
      exists (S k). cbn [firstn]. constructor; [|exact Hk].
      unfold put_for. now rewrite Hs, Hp.
    + intros [= _ <-].
      exists [PutObject bucket key body (content_type_of (format_of d))].
      split; [reflexivity|]. exists 1%nat. cbn [firstn].
      constructor; [unfold put_for; now rewrite Hs, Hp | constructor].
Qed.

Lemma uploads_of_nil (feed : FeedMessage) (sj : option json) (dest_urls : list string) :
  uploads_of w feed sj dest_urls [].
Proof. exists 0%nat. constructor. Qed.

(** Every run: what the trace gains. *)
Lemma run_translation_shape (source_url : string) (dest_urls : list string)
      (tr tr' : list Effect) (r : Res unit) :
  run_translation w source_url dest_urls tr = (r, tr') ->
  exists evs,
    tr' = tr ++ evs
    /\ (evs = []
        \/ evs = [FetchedSource source_url]
        \/ (exists ref fmt, evs = [FetchedSource source_url; FetchedOldFeed ref fmt])
        \/ exists ref fmt feed sj ps,
             evs = [FetchedSource source_url; FetchedOldFeed ref fmt;
                    ProcessedFeed (translator_of w)] ++ ps ++ [ClosedTranslator]
             /\ uploads_of w feed sj dest_urls ps).
Proof.
  unfold run_translation.
  destruct dest_urls as [|d0 rest] eqn:Hd.
  { intros [= _ <-]. exists []. rewrite app_nil_r. auto. }
  rewrite <- Hd.
  destruct (existsb _ dest_urls).
  { intros [= _ <-]. exists []. rewrite app_nil_r. auto. }
  unfold bind at 1. unfold call at 1.
  destruct (fetch_source w source_url) as [[content fmt]|e].
  2:{ intros [= _ <-]. exists [FetchedSource source_url]. auto. }
  unfold bind at 1. unfold lift at 1.
  destruct (parse w content fmt) as [feed|e].
  2:{ intros [= _ <-]. exists [FetchedSource source_url]. auto. }
  unfold bind at 1. unfold lift at 1.
  destruct (load_source_json w content fmt) as [sj|e].
  2:{ intros [= _ <-]. exists [FetchedSource source_url]. auto. }
  unfold bind at 1. unfold lift at 1.
  destruct (reference_destination dest_urls) as [[ref rfmt]|e].
  2:{ intros [= _ <-]. exists [FetchedSource source_url]. auto. }
  unfold bind at 1. unfold call at 1.
  destruct (fetch_old_feed w ref rfmt) as [[old dj]|e].
  2:{ intros [= _ <-]. exists [FetchedSource source_url; FetchedOldFeed ref rfmt].
      rewrite <- app_assoc. split; [reflexivity|]. right. right. left. now exists ref, rfmt. }
  unfold try_finally, bind, call at 1.
  set (t0 := ((tr ++ [FetchedSource source_url]) ++ [FetchedOldFeed ref rfmt])
               ++ [ProcessedFeed (translator_of w)]).
  assert (Hfin : forall (r0 : Res unit) ps feed' sj',
             uploads_of w feed' sj' dest_urls ps ->
             (let (r1, st'') := call ClosedTranslator (translator_close w) (t0 ++ ps) in
              match r1 with Ok _ => (r0, st'') | Raise e => (Raise e, st'') end) = (r, tr') ->
             exists evs,
               tr' = tr ++ evs
               /\ (evs = []
                   \/ evs = [FetchedSource source_url]
                   \/ (exists ref fmt, evs = [FetchedSource source_url; FetchedOldFeed ref fmt])
                   \/ exists ref fmt feed sj ps,
                        evs = [FetchedSource source_url; FetchedOldFeed ref fmt;
                               ProcessedFeed (translator_of w)] ++ ps ++ [ClosedTranslator]
                        /\ uploads_of w feed sj dest_urls ps)).
  { intros r0 ps feed' sj' Hps. unfold call.
    intro H.
    assert (Htr : tr' = (t0 ++ ps) ++ [ClosedTranslator])
      by (destruct (translator_close w); now injection H).
    exists ([FetchedSource source_url; FetchedOldFeed ref rfmt;
             ProcessedFeed (translator_of w)] ++ ps ++ [ClosedTranslator]).
    split; [rewrite Htr; unfold t0; now rewrite <- !app_assoc|].
    right. right. right. now exists ref, rfmt, feed', sj', ps. }
  destruct (process_feed w feed old (translator_of w) _ _ sj dj) as [[m feed']|e].
  - destruct (negb (should_upload old feed' (Some m))).
    + unfold ret. intro H. apply (Hfin (Ok tt) [] feed' sj (uploads_of_nil _ _ _)).
      now rewrite app_nil_r.
    + destruct (for_each (upload w feed' sj) dest_urls t0) as [r0 t1] eqn:E.
      destruct (for_each_upload_prefix _ _ _ _ _ _ E) as (ps & -> & Hps).
      intro H. exact (Hfin r0 ps feed' sj Hps H).
  - intro H. apply (Hfin (Raise e) [] feed sj (uploads_of_nil _ _ _)).
    now rewrite app_nil_r.
Qed.

End RunFacts.

Section RunExtras.
Variable w : World.

Lemma put_for_inv (feed : FeedMessage) (sj : option json) (d : string) (ev : Effect) :
  put_for w feed sj d = Ok ev ->
  exists bucket key body,
    ev = PutObject bucket key body (content_type_of (format_of d))
    /\ serialize w feed (format_of d) sj = Ok body
    /\ get_s3_parts w d = Ok (bucket, key).
Proof.
  unfold put_for.
  destruct (serialize w feed (format_of d) sj) as [body|]; [|discriminate].
  destruct (get_s3_parts w d) as [[bucket key]|]; [|discriminate].
  intros [= <-]. now exists bucket, key, body.
Qed.

Lemma uploads_of_puts (feed : FeedMessage) (sj : option json)
      (dest_urls : list string) (ps : list Effect) :
  uploads_of w feed sj dest_urls ps ->
  puts ps = ps /\ (List.length ps <= List.length dest_urls)%nat
  /\ ~ In ClosedTranslator ps /\ forall k, ~ In (ProcessedFeed k) ps.
Proof.
  intros (k & Hk).
  assert (Hlen : List.length ps = List.length (firstn k dest_urls))
    by (symmetry; eapply Forall2_length, Hk).
  assert (Hput : Forall (fun ev => is_put ev = true) ps).
  { clear Hlen. induction Hk as [|d ev ds ps Hd _ IH]; constructor; [|exact IH].
    apply put_for_inv in Hd as (b & key & body & -> & _). reflexivity. }
  split; [|split; [|split]].
  - clear -Hput. induction Hput as [|ev ps Hev _ IH]; [reflexivity|].
    unfold puts in *. cbn. now rewrite Hev, IH.
  - rewrite Hlen, length_firstn. lia.
  - intro Hin. rewrite Forall_forall in Hput. now specialize (Hput _ Hin).
  - intros kind Hin. rewrite Forall_forall in Hput. now specialize (Hput _ Hin).
Qed.

(** X12.  In every run the translator is closed at most once; it is closed
    exactly when the feed was handed to the processor, and closing is then
    the last effect of the run, whether processing and uploading succeeded
    or raised. *)
Theorem translator_closed_exactly_when_used
        (source_url : string) (dest_urls : list string)
        (tr tr' : list Effect) (r : Res unit) :
  run_translation w source_url dest_urls tr = (r, tr') ->
  exists evs,
    tr' = tr ++ evs
    /\ ((~ In ClosedTranslator evs /\ forall k, ~ In (ProcessedFeed k) evs)
        \/ exists body,
             evs = body ++ [ClosedTranslator]
             /\ ~ In ClosedTranslator body
             /\ In (ProcessedFeed (translator_of w)) body).
Proof.
  intro H. destruct (run_translation_shape w _ _ _ _ _ H) as (evs & -> & Hshape).
  exists evs. split; [reflexivity|].
  destruct Hshape as [-> | [-> | [(ref & fmt & ->) | (ref & fmt & feed & sj & ps & -> & Hps)]]].
  - left. split; [intros [] | intros k []].
  - left. split; [intros [H0|[]]; discriminate | intros k [H0|[]]; discriminate].
  - left. split; [intros [H0|[H0|[]]]; discriminate | intros k [H0|[H0|[]]]; discriminate].
  - right. destruct (uploads_of_puts _ _ _ _ Hps) as (_ & _ & Hnc & _).
    exists ([FetchedSource source_url; FetchedOldFeed ref fmt;
             ProcessedFeed (translator_of w)] ++ ps).
    split; [now rewrite <- app_assoc|]. split.
    + intro Hin. apply in_app_or in Hin as [[H0|[H0|[H0|[]]]]|Hin];
        try discriminate. now apply Hnc.
    + apply in_or_app. left. right. right. now left.
Qed.

(** X13.  In every run the [put_object] calls made are those of the first
    k destinations, for some k, one per destination and in the order of
    [dest_urls]; each has the bucket and key of its URL, the feed serialized
    in the format of that URL, and the matching content type.  No run makes
    more uploads than there are destinations. *)
Theorem uploads_follow_the_destinations
        (source_url : string) (dest_urls : list string)
        (tr tr' : list Effect) (r : Res unit) :
  run_translation w source_url dest_urls tr = (r, tr') ->
  exists evs feed sj k,
    tr' = tr ++ evs
    /\ Forall2 (fun d ev =>
                  exists bucket key body,
                    ev = PutObject bucket key body (content_type_of (format_of d))
                    /\ serialize w feed (format_of d) sj = Ok body
                    /\ get_s3_parts w d = Ok (bucket, key))
               (firstn k dest_urls) (puts evs)
    /\ (List.length (puts evs) <= List.length dest_urls)%nat.
Proof.
  intro H. destruct (run_translation_shape w _ _ _ _ _ H) as (evs & -> & Hshape).
  set (feed0 := {| header_timestamp := 0; entity := [] |}).
  destruct Hshape as [-> | [-> | [(ref & fmt & ->) | (ref & fmt & feed & sj & ps & -> & Hps)]]].
  - exists [], feed0, None, 0%nat. cbn. repeat split; [constructor | lia].
  - exists [FetchedSource source_url], feed0, None, 0%nat.
    cbn. repeat split; [constructor | lia].
  - exists [FetchedSource source_url; FetchedOldFeed ref fmt], feed0, None, 0%nat.
    cbn. repeat split; [constructor | lia].
  - destruct (uploads_of_puts _ _ _ _ Hps) as (Hputs & Hlen & _).
    destruct Hps as (k & Hk).
    eexists _, feed, sj, k. split; [reflexivity|].
    assert (Hp : puts ([FetchedSource source_url; FetchedOldFeed ref fmt;
                        ProcessedFeed (translator_of w)] ++ ps ++ [ClosedTranslator]) = ps).
    { rewrite !puts_app, Hputs. cbn. apply app_nil_r. }
    rewrite Hp. split; [|exact Hlen].
    eapply Forall2_impl; [|exact Hk]. intros d ev. apply put_for_inv.
Qed.

(** X14.  [run_translation] does not catch errors of
    [FeedProcessor.process_feed]: the run raises the same error, nothing is
    uploaded, and the translator is still closed. *)
Theorem feed_processor_error_fails_the_run
        (source_url : string) (dest_urls : list string)
        (tr : list Effect) (content : string) (fmt rfmt : FeedFormat)
        (feed : FeedMessage) (sj dj : option json) (ref : string)
        (old : option FeedMessage) (e : exn) :
  dest_urls <> [] ->
  ~ In source_url dest_urls ->
  fetch_source w source_url = Ok (content, fmt) ->
  parse w content fmt = Ok feed ->
  load_source_json w content fmt = Ok sj ->
  reference_destination dest_urls = Ok (ref, rfmt) ->
  fetch_old_feed w ref rfmt = Ok (old, dj) ->
  process_feed w feed old (translator_of w) (target_lang_list (settings w))
               (concurrency_limit (settings w)) sj dj = Raise e ->
  translator_close w = Ok tt ->
  run_translation w source_url dest_urls tr
  = (Raise e, tr ++ [FetchedSource source_url; FetchedOldFeed ref rfmt;
                     ProcessedFeed (translator_of w); ClosedTranslator]).
Proof.
  intros Hne Hnot Hfetch Hparse Hsj Href Hold Hproc Hclose.
  rewrite (run_translation_prologue w _ _ tr _ _ _ _ _ _ _ _
             Hne Hnot Hfetch Hparse Hsj Href Hold).
  unfold try_finally, bind, call. rewrite Hproc, Hclose.
  now rewrite <- !app_assoc.
Qed.

Lemma for_each_app {X} (f : X -> M (list Effect) unit) (l1 l2 : list X)
      (tr : list Effect) :
  for_each f (l1 ++ l2) tr = bind (for_each f l1) (fun _ => for_each f l2) tr.
Proof.
  revert tr. induction l1 as [|x l1 IH]; intro tr; simpl; [reflexivity|].
  unfold bind. destruct (f x tr) as [[u|e] t1]; [|reflexivity].
  rewrite IH. reflexivity.
Qed.

(** X15.  When [put_object] raises for a destination, the run raises that
    error: the destinations before it have been published, the failed call
    was attempted, the destinations after it are not touched, and the
    translator is closed. *)
Theorem failed_upload_stops_the_publishing
        (source_url : string) (before after : list string) (d : string)
        (tr : list Effect) (content : string) (fmt rfmt : FeedFormat)
        (feed feed' : FeedMessage) (sj dj : option json) (ref : string)
        (old : option FeedMessage) (m : ProcessingMetrics)
        (body bucket key : string) (e : exn) :
  ~ In source_url (before ++ d :: after) ->
  fetch_source w source_url = Ok (content, fmt) ->
  parse w content fmt = Ok feed ->
  load_source_json w content fmt = Ok sj ->
  reference_destination (before ++ d :: after) = Ok (ref, rfmt) ->
  fetch_old_feed w ref rfmt = Ok (old, dj) ->
  process_feed w feed old (translator_of w) (target_lang_list (settings w))
               (concurrency_limit (settings w)) sj dj = Ok (m, feed') ->
  should_upload old feed' (Some m) = true ->
  (forall x, In x before -> upload_succeeds w feed' sj x) ->
  serialize w feed' (format_of d) sj = Ok body ->
  get_s3_parts w d = Ok (bucket, key) ->
  put_object w bucket key body (content_type_of (format_of d)) = Raise e ->
  translator_close w = Ok tt ->
  run_translation w source_url (before ++ d :: after) tr
  = (Raise e,
     tr ++ [FetchedSource source_url; FetchedOldFeed ref rfmt;
            ProcessedFeed (translator_of w)]
        ++ published w feed' sj before
        ++ [PutObject bucket key body (content_type_of (format_of d));
            ClosedTranslator]).
Proof.
  intros Hnot Hfetch Hparse Hsj Href Hold Hproc Hup Hbefore Hs Hp Hput Hclose.
  assert (Hne : before ++ d :: after <> []) by (destruct before; discriminate).
  rewrite (run_translation_prologue w _ _ tr _ _ _ _ _ _ _ _
             Hne Hnot Hfetch Hparse Hsj Href Hold).
  unfold try_finally. unfold bind at 1. unfold call at 1. rewrite Hproc, Hup.
  cbn [negb]. rewrite for_each_app. unfold bind at 1.
  destruct (for_each_upload_ok w feed' sj before
              (((tr ++ [FetchedSource source_url]) ++ [FetchedOldFeed ref rfmt])
                 ++ [ProcessedFeed (translator_of w)]) Hbefore) as (-> & _).
  cbn [for_each]. unfold bind at 1. unfold upload at 1.
  unfold bind, lift, call. rewrite Hs, Hp, Hput, Hclose.
  f_equal. rewrite <- !app_assoc. reflexivity.
Qed.

(** X16.  When closing the translator raises, the run raises that error
    although the feed was already published to every destination. *)
Theorem failed_close_fails_the_run
        (source_url : string) (dest_urls : list string)
        (tr : list Effect) (content : string) (fmt rfmt : FeedFormat)
        (feed feed' : FeedMessage) (sj dj : option json) (ref : string)
        (old : option FeedMessage) (m : ProcessingMetrics) (e : exn) :
  dest_urls <> [] ->
  ~ In source_url dest_urls ->
  fetch_source w source_url = Ok (content, fmt) ->
  parse w content fmt = Ok feed ->
  load_source_json w content fmt = Ok sj ->
  reference_destination dest_urls = Ok (ref, rfmt) ->
  fetch_old_feed w ref rfmt = Ok (old, dj) ->
  process_feed w feed old (translator_of w) (target_lang_list (settings w))
               (concurrency_limit (settings w)) sj dj = Ok (m, feed') ->
  should_upload old feed' (Some m) = true ->
  (forall d, In d dest_urls -> upload_succeeds w feed' sj d) ->
  translator_close w = Raise e ->
  run_translation w source_url dest_urls tr
  = (Raise e,
     tr ++ [FetchedSource source_url; FetchedOldFeed ref rfmt;
            ProcessedFeed (translator_of w)]
        ++ published w feed' sj dest_urls ++ [ClosedTranslator]).
Proof.
  intros Hne Hnot Hfetch Hparse Hsj Href Hold Hproc Hup Hall Hclose.
  rewrite (run_translation_prologue w _ _ tr _ _ _ _ _ _ _ _
             Hne Hnot Hfetch Hparse Hsj Href Hold).
  unfold try_finally. unfold bind at 1. unfold call at 1. rewrite Hproc, Hup.
  cbn [negb].
  destruct (for_each_upload_ok w feed' sj dest_urls
              (((tr ++ [FetchedSource source_url]) ++ [FetchedOldFeed ref rfmt])
                 ++ [ProcessedFeed (translator_of w)]) Hall) as (-> & _).
  unfold call. rewrite Hclose. f_equal. now rewrite <- !app_assoc.
Qed.

(** X17.  When fetching the source, parsing it or loading its JSON raises,
    the run raises that error after the source fetch alone: no previous feed
    is fetched, nothing is published and no translator is closed. *)
Theorem early_failure_leaves_no_translator
        (source_url : string) (dest_urls : list string) (tr : list Effect) (e : exn) :
  dest_urls <> [] ->
  ~ In source_url dest_urls ->
  (fetch_source w source_url = Raise e
   \/ exists content fmt,
        fetch_source w source_url = Ok (content, fmt)
        /\ (parse w content fmt = Raise e
            \/ exists feed, parse w content fmt = Ok feed
                            /\ load_source_json w content fmt = Raise e)) ->
  run_translation w source_url dest_urls tr = (Raise e, tr ++ [FetchedSource source_url]).
Proof.
  intros Hne Hnot Hfail. unfold run_translation.
  destruct dest_urls as [|d0 rest] eqn:Hd; [contradiction|]. rewrite <- Hd in *.
  destruct (existsb _ dest_urls) eqn:E; [apply existsb_eqb_In in E; contradiction|].
  unfold bind at 1. unfold call at 1.
  destruct Hfail as [-> | (content & fmt & -> & [Hp | (feed & Hp & Hj)])];
    [reflexivity| |].
  - unfold bind at 1. unfold lift at 1. now rewrite Hp.
  - unfold bind at 1. unfold lift at 1. rewrite Hp.
    unfold bind at 1. unfold lift at 1. now rewrite Hj.
Qed.

End RunExtras.

(** X23.  With no previous feed at the reference destination, a run whose
    feed processor returns publishes whatever the metrics say: the feed the
    processor produced is uploaded once to every destination, in order,
    and the translator is closed after the last upload. *)
Theorem run_without_previous_feed_publishes
        (w : World) (source_url : string) (dest_urls : list string)
        (tr : list Effect) (content : string) (fmt rfmt : FeedFormat)
        (feed feed' : FeedMessage) (sj dj : option json) (ref : string)
        (m : ProcessingMetrics) :
  dest_urls <> [] ->
  ~ In source_url dest_urls ->
  fetch_source w source_url = Ok (content, fmt) ->
  parse w content fmt = Ok feed ->
  load_source_json w content fmt = Ok sj ->
  reference_destination dest_urls = Ok (ref, rfmt) ->
  fetch_old_feed w ref rfmt = Ok (None, dj) ->
  process_feed w feed None (translator_of w) (target_lang_list (settings w))
               (concurrency_limit (settings w)) sj dj = Ok (m, feed') ->
  (forall d, In d dest_urls -> upload_succeeds w feed' sj d) ->
  translator_close w = Ok tt ->
  run_translation w source_url dest_urls tr
  = (Ok tt,
     tr ++ [FetchedSource source_url; FetchedOldFeed ref rfmt;
            ProcessedFeed (translator_of w)]
        ++ published w feed' sj dest_urls ++ [ClosedTranslator])
  /\ List.length (published w feed' sj dest_urls) = List.length dest_urls.
Proof.
  intros Hne Hnot Hfetch Hparse Hsj Href Hold Hproc Hup Hclose.
  split.
  - exact (run_translation_outcome w _ _ tr _ _ _ _ _ _ _ _ _ _
             Hne Hnot Hfetch Hparse Hsj Href Hold Hproc (fun _ => Hup) Hclose).
  - apply (for_each_upload_ok w feed' sj dest_urls [] Hup).
Qed.

(* ===================================================================== *)
(** * [MockTranslator] and [lambda_handler] *)
(* ===================================================================== *)

Lemma append_inj_l (p a b : string) : (p ++ a)%string = (p ++ b)%string -> a = b.
Proof. induction p as [|c p IH]; simpl; [auto | intros [= H]; auto]. Qed.

(** X22.  [MockTranslator.translate_batch] returns one string per text, in
    order, the i-th being "[lang] " followed by [texts[i]]; for a fixed
    language different inputs give different outputs. *)
Theorem mock_translation_tags_every_text (texts : list string) (target_lang : string) :
  List.length (Mock.translate_batch texts target_lang) = List.length texts
  /\ (forall i, nth_error (Mock.translate_batch texts target_lang) i
                = option_map (fun text => ("[" ++ target_lang ++ "] " ++ text)%string)
                             (nth_error texts i))
  /\ (forall texts', Mock.translate_batch texts target_lang
                     = Mock.translate_batch texts' target_lang -> texts = texts').
Proof.
  unfold Mock.translate_batch. split; [apply length_map|]. split.
  - intro i. apply nth_error_map.
  - induction texts as [|t ts IH]; intros [|t' ts']; simpl; try discriminate; auto.
    intros [= Ht Hts]. f_equal; [|now apply IH].
    apply append_inj_l in Ht. now injection Ht.
Qed.

Section EntryFacts.
Import Entry.
Variable rt : Runtime.
Variable cfg : Config.
Variable w : World.

Lemma getitem_contains (v x : json) (k : string) :
  getitem v k = Ok x -> contains k v = Ok true.
Proof.
  destruct v; try discriminate. simpl.
  intro H. f_equal. induction kv as [|[k' v'] kv IH]; simpl in *; [discriminate|].
  rewrite (String.eqb_sym k' k). destruct (k =? k')%string; [reflexivity|].
  now apply IH.
Qed.

(** What [lambda_handler] does once the source URL is known. *)
Lemma lambda_handler_with_source (event : json) (url : string) (tr : list Effect) :
  event_source rt cfg event = Ok (Some url) ->
  url <> EmptyString ->
  destination_bucket_url_list cfg <> [] ->
  lambda_handler rt cfg w event tr
  = (let (r, tr') := run_translation w url (destination_bucket_url_list cfg) tr in
     (match r with Ok _ => Ok completed | Raise e => Raise e end, tr')).
Proof.
  intros Hsrc Hurl Hd. unfold lambda_handler, bind, lift. rewrite Hsrc.
  destruct url as [|c url]; [contradiction|].
  destruct (destination_bucket_url_list cfg) as [|d ds]; [contradiction|].
  destruct (run_translation w (String c url) (d :: ds) tr) as [[u|e] tr']; reflexivity.
Qed.

End EntryFacts.

(** X18.  For an S3 event the source is [s3://bucket/key] of the first
    record, with the key passed through [unquote_plus]; the configured
    source URL and any further record are ignored.  The handler answers
    with the 200 response when the run returns and raises what the run
    raises. *)
Theorem s3_event_names_the_source
        (rt : Entry.Runtime) (cfg : Entry.Config) (w : World)
        (event records record s3 b o : json) (bucket key : string)
        (tr : list Effect) :
  getitem event "Records" = Ok records ->
  Entry.first_item records = Ok record ->
  getitem record "s3" = Ok s3 ->
  getitem s3 "bucket" = Ok b ->
  getitem b "name" = Ok (JStr bucket) ->
  getitem s3 "object" = Ok o ->
  getitem o "key" = Ok (JStr key) ->
  Entry.destination_bucket_url_list cfg <> [] ->
  Entry.lambda_handler rt cfg w event tr
  = (let (r, tr') :=
       run_translation w ("s3://" ++ bucket ++ "/" ++ Entry.unquote_plus rt key)%string
                       (Entry.destination_bucket_url_list cfg) tr in
     (match r with Ok _ => Ok Entry.completed | Raise e => Raise e end, tr')).
Proof.
  intros Hrec Hfirst Hs3 Hb Hname Ho Hkey Hd.
  apply lambda_handler_with_source; [|discriminate | exact Hd].
  unfold Entry.event_source. rewrite (getitem_contains _ _ _ Hrec), Hrec, Hfirst.
  rewrite (getitem_contains _ _ _ Hs3).
  unfold Entry.record_url. rewrite Hs3, Hb, Hname, Ho, Hkey. reflexivity.
Qed.

(** X19.  An event without [Records], or whose first record has no [s3]
    entry, is run on the configured source URL. *)
Theorem other_events_use_the_configured_source
        (rt : Entry.Runtime) (cfg : Entry.Config) (w : World)
        (event : json) (url : string) (tr : list Effect) :
  (Entry.contains "Records" event = Ok false
   \/ exists records record,
        getitem event "Records" = Ok records
        /\ Entry.first_item records = Ok record
        /\ Entry.contains "s3" record = Ok false) ->
  Entry.source_url cfg = Some url ->
  url <> EmptyString ->
  Entry.destination_bucket_url_list cfg <> [] ->
  Entry.lambda_handler rt cfg w event tr
  = (let (r, tr') := run_translation w url (Entry.destination_bucket_url_list cfg) tr in
     (match r with Ok _ => Ok Entry.completed | Raise e => Raise e end, tr')).
Proof.
  intros Hev Hsrc Hurl Hd.
  apply lambda_handler_with_source; [|exact Hurl | exact Hd].
  unfold Entry.event_source.
  destruct Hev as [-> | (records & record & Hrec & Hfirst & Hs3)]; [now rewrite Hsrc|].
  now rewrite (getitem_contains _ _ _ Hrec), Hrec, Hfirst, Hs3, Hsrc.
Qed.

(** X20.  When the event cannot be decoded, when no source URL results, or
    when no destination is configured, [lambda_handler] raises and the
    trace of side effects is unchanged: no run was started. *)
Theorem handler_fails_before_running
        (rt : Entry.Runtime) (cfg : Entry.Config) (w : World)
        (event : json) (tr : list Effect) :
  (exists e, Entry.event_source rt cfg event = Raise e)
  \/ Entry.event_source rt cfg event = Ok None
  \/ Entry.event_source rt cfg event = Ok (Some EmptyString)
  \/ Entry.destination_bucket_url_list cfg = [] ->
  exists e, Entry.lambda_handler rt cfg w event tr = (Raise e, tr).
Proof.
  unfold Entry.lambda_handler, bind, lift, raise.
  intros [[e ->] | [-> | [-> | Hd]]]; try (now eexists).
  destruct (Entry.event_source rt cfg event) as [[[|c url]|]|e]; try (now eexists).
  rewrite Hd. now eexists.
Qed.

Lemma source_among_destinations_raises (w : World) (source_url : string)
      (dest_urls : list string) (tr : list Effect) :
  In source_url dest_urls ->
  exists msg, run_translation w source_url dest_urls tr = (Raise (ValueError msg), tr).
Proof.
  intro Hin. unfold run_translation. destruct dest_urls as [|d0 rest]; [now eexists|].
  apply existsb_eqb_In in Hin. rewrite Hin. now eexists.
Qed.

(** X21.  A response is returned only after a run that completed: it is
    the 200 response, the source URL is not empty and not among the
    destinations, and [run_translation] returned normally. *)
Theorem response_means_a_completed_run
        (rt : Entry.Runtime) (cfg : Entry.Config) (w : World)
        (event response : json) (tr tr' : list Effect) :
  Entry.lambda_handler rt cfg w event tr = (Ok response, tr') ->
  response = Entry.completed
  /\ exists url,
       Entry.event_source rt cfg event = Ok (Some url)
       /\ url <> EmptyString
       /\ Entry.destination_bucket_url_list cfg <> []
       /\ ~ In url (Entry.destination_bucket_url_list cfg)
       /\ run_translation w url (Entry.destination_bucket_url_list cfg) tr = (Ok tt, tr').
Proof.
  unfold Entry.lambda_handler, bind, lift, raise.
  destruct (Entry.event_source rt cfg event) as [[[|c url]|]|e]; try discriminate.
  destruct (Entry.destination_bucket_url_list cfg) as [|d ds] eqn:Hd; [discriminate|].
  destruct (run_translation w (String c url) (d :: ds) tr) as [[[]|e] t1] eqn:Hrun;
    [|discriminate].
  unfold ret. intros [= <- <-]. split; [reflexivity|].
  exists (String c url). repeat split; try discriminate; try assumption.
  intro Hin.
  destruct (source_among_destinations_raises w (String c url) (d :: ds) tr Hin)
    as [msg Hmsg].
  rewrite Hmsg in Hrun. discriminate.
Qed.

(* ===================================================================== *)
(** * The further theorems at concrete runs *)
(* ===================================================================== *)

Lemma request_key_read_back_witness :
  int (JStr "1") = Ok (Z.of_nat 1) /\ nth_error ["Hello"; "World"] 1 = Some "World".
Proof.
  apply (request_key_read_back ["Hello"; "World"] 1 "1" "World"). reflexivity.
Defined.

Lemma output_is_reply_sorted_by_key_witness :
  exists sorted_items,
    Permutation sorted_items [Scenario.item "1" "Mundo"; Scenario.item "0" "Hola"]
    /\ StronglySorted by_key sorted_items
    /\ Forall2 (fun x t => getitem x "translationText" = Ok t) sorted_items
               [JStr "Hola"; JStr "Mundo"].
Proof.
  apply (output_is_reply_sorted_by_key
           Scenario.env_swapped Scenario.me ["Hello"; "World"] "es" init
           Cases.with_fresh_token
           (with_event (mt_request Scenario.me ["Hello"; "World"] "es" (JStr "test-token"))
                       Cases.with_fresh_token)
           (JStr "test-token")
           (Scenario.mt_data [Scenario.item "1" "Mundo"; Scenario.item "0" "Hola"])
           200); try reflexivity; discriminate.
Defined.

Lemma ascending_reply_keeps_its_order_witness :
  Forall2 (fun x t => getitem x "translationText" = Ok t) Cases.tied_items
          [JStr "A"; JStr "B"; JStr "C"].
Proof.
  apply (ascending_reply_keeps_its_order
           Cases.env_ties Scenario.me ["x"; "y"; "z"] "es" init
           Cases.with_fresh_token
           (with_event (mt_request Scenario.me ["x"; "y"; "z"] "es" (JStr "test-token"))
                       Cases.with_fresh_token)
           (JStr "test-token") (Scenario.mt_data Cases.tied_items) 200);
    try reflexivity; try discriminate.
  unfold Cases.tied_items.
  repeat (constructor; [|repeat constructor; unfold by_key; vm_compute; discriminate]).
  constructor.
Defined.

Lemma malformed_item_fails_the_call_witness :
  (exists e,
      translate_batch Cases.env_no_text Scenario.me ["Hello"; "World"] "es" init
      = (Raise e,
         with_event (mt_request Scenario.me ["Hello"; "World"] "es" (JStr "test-token"))
                    Cases.with_fresh_token)
      /\ forall s, e <> HTTPStatusError s)
  /\ (exists e,
         translate_batch Cases.env_bad_key Scenario.me ["Hello"; "World"] "es" init
         = (Raise e,
            with_event (mt_request Scenario.me ["Hello"; "World"] "es" (JStr "test-token"))
                       Cases.with_fresh_token)
         /\ forall s, e <> HTTPStatusError s).
Proof.
  split.
  - apply (malformed_item_fails_the_call
             Cases.env_no_text Scenario.me ["Hello"; "World"] "es" init
             Cases.with_fresh_token (JStr "test-token")
             (Scenario.mt_data [Scenario.item "0" "Hola"; Cases.no_text]) 200
             [Scenario.item "0" "Hola"; Cases.no_text] Cases.no_text);
      try reflexivity; try discriminate.
    + right. left. reflexivity.
    + right. right. exists (KeyError "translationText"). reflexivity.
  - apply (malformed_item_fails_the_call
             Cases.env_bad_key Scenario.me ["Hello"; "World"] "es" init
             Cases.with_fresh_token (JStr "test-token")
             (Scenario.mt_data [Scenario.item "0" "Hola"; Cases.bad_key]) 200
             [Scenario.item "0" "Hola"; Cases.bad_key] Cases.bad_key);
      try reflexivity; try discriminate.
    + right. left. reflexivity.
    + right. left.
      exists (JStr "uno"), (ValueError "invalid literal for int() with base 10").
      split; [reflexivity|]. split; [reflexivity|].
      intros s Hs. injection Hs as <-. reflexivity.
Defined.

Lemma at_most_two_requests_of_each_kind_witness :
  exists evs,
    log Cases.refreshed = log Scenario.stale ++ evs
    /\ (auth_calls evs <= 2)%nat
    /\ (mt_calls evs <= 2)%nat
    /\ Forall (fun ev => ev = AuthPost (user_id Scenario.me) (user_secret Scenario.me)
                         \/ exists tok, ev = mt_request Scenario.me ["Hello"] "es" tok) evs
    /\ (clock_reads Cases.refreshed <= clock_reads Scenario.stale + 2)%nat.
Proof.
  apply (at_most_two_requests_of_each_kind
           Scenario.env_stale Scenario.me ["Hello"] "es" Scenario.stale Cases.refreshed
           (Ok [JStr "Retry Success"])).
  vm_compute. reflexivity.
Defined.

Lemma rejected_credentials_cost_two_authentications_witness :
  exists st',
    translate_batch Cases.env_rejected Scenario.me ["Hello"] "es" init
    = (Raise (HTTPStatusError 401), st')
    /\ log st' = log init ++ [AuthPost "user" "secret"; AuthPost "user" "secret"]
    /\ _token st' = JNull
    /\ _token_expiry st' = _token_expiry init.
Proof.
  apply (rejected_credentials_cost_two_authentications
           Cases.env_rejected Scenario.me ["Hello"] "es" init);
    try reflexivity; discriminate.
Defined.

Lemma translation_failure_is_not_retried_witness :
  translate_batch Scenario.env_down Scenario.me ["Hello"] "es" init
  = (Raise (HTTPStatusError 500),
     with_event (mt_request Scenario.me ["Hello"] "es" (JStr "test-token"))
                Cases.with_fresh_token).
Proof.
  apply (translation_failure_is_not_retried
           Scenario.env_down Scenario.me ["Hello"] "es" init
           Cases.with_fresh_token (JStr "test-token"));
    try reflexivity; discriminate.
Defined.

Lemma failed_authentication_keeps_the_expiry_witness :
  exists st',
    _get_token Cases.env_no_expiry Scenario.me init = (Raise (KeyError "expiresIn"), st')
    /\ _token st' = JStr "half"
    /\ _token_expiry st' = _token_expiry init
    /\ log st' = log init ++ [AuthPost "user" "secret"].
Proof.
  eexists. split; [vm_compute; reflexivity|]. split; [reflexivity|].
  destruct (failed_authentication_keeps_the_expiry
              Cases.env_no_expiry Scenario.me init
              {| _token := JStr "half"; _token_expiry := 0; clock_reads := 1;
                 log := [AuthPost "user" "secret"] |}
              (KeyError "expiresIn") eq_refl) as (Hexp & Hlog & _).
  split; assumption.
Defined.


Lemma should_upload_iff_witness :
  should_upload (Some Scenario.sample_feed) Scenario.sample_feed
                (Some {| strings_translated := 0 |}) = false
  /\ should_upload None Scenario.sample_feed (Some {| strings_translated := 0 |}) <> false.
Proof.
  split.
  - apply (proj2 (should_upload_iff (Some Scenario.sample_feed) Scenario.sample_feed
                    (Some {| strings_translated := 0 |}))).
    exists Scenario.sample_feed, {| strings_translated := 0 |}.
    repeat split; try reflexivity; cbn; lia.
  - intro H.
    apply (proj1 (should_upload_iff None Scenario.sample_feed
                    (Some {| strings_translated := 0 |}))) in H.
    destruct H as (old & m & Hold & _). discriminate Hold.
Defined.

Lemma translator_closed_exactly_when_used_witness :
  exists evs,
    Cases.two_uploads = [] ++ evs
    /\ ((~ In ClosedTranslator evs /\ forall k, ~ In (ProcessedFeed k) evs)
        \/ exists body,
             evs = body ++ [ClosedTranslator]
             /\ ~ In ClosedTranslator body
             /\ In (ProcessedFeed (translator_of Cases.world_put_fails)) body).
Proof.
  apply (translator_closed_exactly_when_used
           Cases.world_put_fails Scenario.source_url Cases.two_destinations []
           Cases.two_uploads (Raise (OtherError "AccessDenied"))).
  vm_compute. reflexivity.
Defined.

Lemma uploads_follow_the_destinations_witness :
  exists evs feed sj k,
    Cases.two_uploads = [] ++ evs
    /\ Forall2 (fun d ev =>
                  exists bucket key body,
                    ev = PutObject bucket key body (content_type_of (format_of d))
                    /\ serialize Cases.world_fine feed (format_of d) sj = Ok body
                    /\ get_s3_parts Cases.world_fine d = Ok (bucket, key))
               (firstn k Cases.two_destinations) (puts evs)
    /\ (List.length (puts evs) <= List.length Cases.two_destinations)%nat.
Proof.
  apply (uploads_follow_the_destinations
           Cases.world_fine Scenario.source_url Cases.two_destinations []
           Cases.two_uploads (Ok tt)).
  vm_compute. reflexivity.
Defined.

Lemma feed_processor_error_fails_the_run_witness :
  run_translation Cases.world_processor_fails Scenario.source_url Cases.two_destinations []
  = (Raise (OtherError "processor"),
     [] ++ [FetchedSource Scenario.source_url; FetchedOldFeed "s3://b/alerts.json" Fjson;
            ProcessedFeed (translator_of Cases.world_processor_fails); ClosedTranslator]).
Proof.
  apply (feed_processor_error_fails_the_run
           Cases.world_processor_fails Scenario.source_url Cases.two_destinations []
           "<source bytes>" Fpb Fjson Scenario.sample_feed None None
           "s3://b/alerts.json" None (OtherError "processor"));
    try reflexivity; try discriminate.
  intros [H|[H|[]]]; discriminate H.
Defined.

Lemma failed_upload_stops_the_publishing_witness :
  run_translation Cases.world_put_fails Scenario.source_url
                  (["s3://b/alerts.pb"] ++ "s3://b/alerts.json" :: ["s3://b/late.pb"]) []
  = (Raise (OtherError "AccessDenied"),
     [] ++ [FetchedSource Scenario.source_url; FetchedOldFeed "s3://b/alerts.json" Fjson;
            ProcessedFeed (translator_of Cases.world_put_fails)]
        ++ published Cases.world_put_fails Scenario.sample_feed None ["s3://b/alerts.pb"]
        ++ [PutObject "test-bucket" "s3://b/alerts.json" "<feed bytes>"
                      (content_type_of (format_of "s3://b/alerts.json"));
            ClosedTranslator]).
Proof.
  apply (failed_upload_stops_the_publishing
           Cases.world_put_fails Scenario.source_url
           ["s3://b/alerts.pb"] ["s3://b/late.pb"] "s3://b/alerts.json" []
           "<source bytes>" Fpb Fjson Scenario.sample_feed Scenario.sample_feed
           None None "s3://b/alerts.json" None {| strings_translated := 2 |}
           "<feed bytes>" "test-bucket" "s3://b/alerts.json" (OtherError "AccessDenied"));
    try reflexivity; try discriminate.
  - intros [H|[H|[H|[]]]]; discriminate H.
  - intros x [<-|[]]. exists "<feed bytes>", "test-bucket", "s3://b/alerts.pb".
    repeat split.
Defined.

Lemma failed_close_fails_the_run_witness :
  run_translation Cases.world_close_fails Scenario.source_url Cases.two_destinations []
  = (Raise RequestError,
     [] ++ [FetchedSource Scenario.source_url; FetchedOldFeed "s3://b/alerts.json" Fjson;
            ProcessedFeed (translator_of Cases.world_close_fails)]
        ++ published Cases.world_close_fails Scenario.sample_feed None
                     Cases.two_destinations
        ++ [ClosedTranslator]).
Proof.
  apply (failed_close_fails_the_run
           Cases.world_close_fails Scenario.source_url Cases.two_destinations []
           "<source bytes>" Fpb Fjson Scenario.sample_feed Scenario.sample_feed
           None None "s3://b/alerts.json" None {| strings_translated := 2 |}
           RequestError);
    try reflexivity; try discriminate.
  - intros [H|[H|[]]]; discriminate H.
  - intros d [<-|[<-|[]]]; eexists "<feed bytes>", "test-bucket", _; repeat split.
Defined.

Lemma early_failure_leaves_no_translator_witness :
  run_translation Cases.world_fetch_fails Scenario.source_url Cases.two_destinations []
  = (Raise RequestError, [] ++ [FetchedSource Scenario.source_url]).
Proof.
  apply (early_failure_leaves_no_translator
           Cases.world_fetch_fails Scenario.source_url Cases.two_destinations []
           RequestError).
  - discriminate.
  - intros [H|[H|[]]]; discriminate H.
  - left. reflexivity.
Defined.

Lemma mock_translation_tags_every_text_witness :
  Mock.translate_batch ["Hello"; "World"] "es" = ["[es] Hello"; "[es] World"]
  /\ (Mock.translate_batch ["Hello"] "es" = Mock.translate_batch ["Hello"] "es"
      -> ["Hello"] = ["Hello"]).
Proof.
  split; [reflexivity|].
  apply (proj2 (proj2 (mock_translation_tags_every_text ["Hello"] "es"))).
Defined.

Lemma s3_event_names_the_source_witness :
  Entry.lambda_handler Cases.runtime Cases.config Cases.world_fine Cases.s3_event []
  = (let (r, tr') :=
       run_translation Cases.world_fine
         ("s3://" ++ "source-bucket" ++ "/" ++ Entry.unquote_plus Cases.runtime "my+alerts.pb")
         (Entry.destination_bucket_url_list Cases.config) [] in
     (match r with Ok _ => Ok Entry.completed | Raise e => Raise e end, tr')).
Proof.
  apply (s3_event_names_the_source
           Cases.runtime Cases.config Cases.world_fine Cases.s3_event
           (JArr [Cases.s3_record "source-bucket" "my+alerts.pb";
                  Cases.s3_record "other" "ignored.pb"])
           (Cases.s3_record "source-bucket" "my+alerts.pb")
           (JObj [("bucket", JObj [("name", JStr "source-bucket")]);
                  ("object", JObj [("key", JStr "my+alerts.pb")])])
           (JObj [("name", JStr "source-bucket")])
           (JObj [("key", JStr "my+alerts.pb")])
           "source-bucket" "my+alerts.pb" []);
    try reflexivity; discriminate.
Defined.

Lemma other_events_use_the_configured_source_witness :
  Entry.lambda_handler Cases.runtime Cases.config Cases.world_fine Cases.scheduled_event []
  = (let (r, tr') :=
       run_translation Cases.world_fine "http://example.com/alerts.pb"
                       (Entry.destination_bucket_url_list Cases.config) [] in
     (match r with Ok _ => Ok Entry.completed | Raise e => Raise e end, tr')).
Proof.
  apply (other_events_use_the_configured_source
           Cases.runtime Cases.config Cases.world_fine Cases.scheduled_event
           "http://example.com/alerts.pb" []);
    try reflexivity; try discriminate.
  left. reflexivity.
Defined.

Lemma handler_fails_before_running_witness :
  (exists e, Entry.lambda_handler Cases.runtime Cases.config Cases.world_fine
                                  Cases.empty_records [] = (Raise e, []))
  /\ (exists e, Entry.lambda_handler Cases.runtime Cases.config_no_source Cases.world_fine
                                     Cases.scheduled_event [] = (Raise e, [])).
Proof.
  split.
  - apply (handler_fails_before_running
             Cases.runtime Cases.config Cases.world_fine Cases.empty_records []).
    left. eexists. reflexivity.
  - apply (handler_fails_before_running
             Cases.runtime Cases.config_no_source Cases.world_fine
             Cases.scheduled_event []).
    right. left. reflexivity.
Defined.

Lemma response_means_a_completed_run_witness :
  Entry.completed = Entry.completed
  /\ exists url,
       Entry.event_source Cases.runtime Cases.config Cases.s3_event = Ok (Some url)
       /\ url <> EmptyString
       /\ Entry.destination_bucket_url_list Cases.config <> []
       /\ ~ In url (Entry.destination_bucket_url_list Cases.config)
       /\ run_translation Cases.world_fine url
                          (Entry.destination_bucket_url_list Cases.config) []
          = (Ok tt, Cases.trace_s3).
Proof.
  apply (response_means_a_completed_run
           Cases.runtime Cases.config Cases.world_fine Cases.s3_event Entry.completed
           [] Cases.trace_s3).
  vm_compute. reflexivity.
Defined.

Lemma run_without_previous_feed_publishes_witness :
  run_translation (Scenario.world_idle None) Scenario.source_url Scenario.destinations []
  = (Ok tt,
     [] ++ [FetchedSource Scenario.source_url;
            FetchedOldFeed "s3://test-bucket/alerts.pb" Fpb;
            ProcessedFeed (translator_of (Scenario.world_idle None))]
        ++ published (Scenario.world_idle None) Scenario.sample_feed None
                     Scenario.destinations
        ++ [ClosedTranslator])
  /\ List.length (published (Scenario.world_idle None) Scenario.sample_feed None
                            Scenario.destinations)
     = List.length Scenario.destinations.
Proof.
  apply (run_without_previous_feed_publishes
           (Scenario.world_idle None) Scenario.source_url Scenario.destinations []
           "<source bytes>" Fpb Fpb Scenario.sample_feed Scenario.sample_feed
           None None "s3://test-bucket/alerts.pb" {| strings_translated := 0 |});
    try reflexivity; try discriminate.
  - intros [H|[]]. discriminate H.
  - intros d Hd. exists "<feed bytes>", "test-bucket", "alerts.pb". repeat split.
Defined.
